(** * Minesweeper: the [Minefield] class of MineSweeper.py

    A shallow embedding of the game core (board construction, adjacency
    pass, dig with its recursive flood fill, flag toggle, win and loss
    queries) and the properties of its specification.

    Conventions.
    - numpy arrays of shape (rows, cols) are a record holding the shape and
      the row-major buffer; an index is normalised the way numpy does it
      (a negative index counts from the end, anything else out of range
      raises IndexError, or OverflowError where the index does not fit the
      signed 64-bit index type of numpy but fits the unsigned one).
    - methods mutate [self]: they are computations in a state-and-exception
      monad over the [Minefield] record; an exception leaves the object in
      the state reached when it was raised.
    - [dig] is recursive on the call stack; the embedding takes the depth
      of the stack as fuel and the theorems show how much of it is enough.
    - [np.random.shuffle] is a parameter of the construction, known only to
      permute its argument. *)

From Stdlib Require Import ZArith Lia Ascii DecimalString.
From stdpp Require Import base list strings gmap pretty.

Local Open Scope Z_scope.

(** ** numpy arrays *)

Module np.

Record ndarray := mk_ndarray { nrows : Z; ncols : Z; data : list Z }.

(** Index normalisation of [a[i]] along an axis of size [n]. *)
Definition norm_index (i n : Z) : option Z :=
  if (0 <=? i) && (i <? n) then Some i
  else if (- n <=? i) && (i <? 0) then Some (i + n)
  else None.

Definition offset (a : ndarray) (row col : Z) : option nat :=
  r ← norm_index row (nrows a);
  c ← norm_index col (ncols a);
  Some (Z.to_nat (r * ncols a + c)).

(** [a[row, col]] *)
Definition getitem (a : ndarray) (row col : Z) : option Z :=
  i ← offset a row col; data a !! i.

(** [a[row, col] = v] *)
Definition setitem (a : ndarray) (row col v : Z) : option ndarray :=
  i ← offset a row col;
  _ ← data a !! i;
  Some (mk_ndarray (nrows a) (ncols a) (<[i:=v]> (data a))).

(** [np.zeros(n)] and [np.full(n, v)], one-dimensional. *)
Definition full (n v : Z) : list Z := replicate (Z.to_nat n) v.
Definition zeros (n : Z) : list Z := full n 0.

(** A one-dimensional array, which [self.field] is between the two
    assignments of [__create_field]: the record keeps its buffer with no
    rows and no columns, so that no index [row, col] lies within it, as in
    numpy, which has one index too many for it. *)
Definition array1d (l : list Z) : ndarray := mk_ndarray 0 0 l.

(** [np.zeros((rows, cols))] *)
Definition zeros2 (rows cols : Z) : ndarray :=
  mk_ndarray rows cols (zeros (rows * cols)).

(** [np.reshape(flat, (rows, cols))]: the buffer is kept, row-major. *)
Definition reshape (flat : list Z) (rows cols : Z) : option ndarray :=
  if decide (Z.of_nat (length flat) = rows * cols ∧ 0 ≤ rows ∧ 0 ≤ cols)
  then Some (mk_ndarray rows cols flat) else None.

(** [np.column_stack(np.nonzero(a))]: the coordinates of the entries that
    are not zero, in row-major order. *)
Definition nonzero (a : ndarray) : list (Z * Z) :=
  (λ i : nat, (Z.of_nat i `div` ncols a, Z.of_nat i `mod` ncols a)) <$>
    filter (λ i : nat, data a !! i ≠ Some 0) (seq 0 (length (data a))).

(** [np.count_nonzero(a == v)] *)
Definition count_eq (a : ndarray) (v : Z) : Z :=
  Z.of_nat (length (filter (λ x, x = v) (data a))).

End np.

Import np.

(** ** The object and its monad *)

Inductive exn :=
  | IndexError | OverflowError | KeyError | ValueError | AttributeError.

Inductive result (A : Type) :=
  | Ok (a : A)
  | Raise (e : exn)
  | OutOfFuel.
Arguments Ok {A} a.
Arguments Raise {A} e.
Arguments OutOfFuel {A}.

(** [field] holds -1 for a mine and the number of touching mines otherwise;
    [field_map] holds 0 (buried), 1 (dug) or 2 (flagged): a float array in
    the source, which only ever stores and compares these three values, so
    integers stand for them.  [_game_lost] is the class attribute [False]
    until [dig] shadows it on the instance; [_game_won] does not exist
    before the first [game_won] query. *)
Record Minefield := mk_Minefield {
  mine_amnt : Z;
  width : Z;
  height : Z;
  field : ndarray;
  field_map : ndarray;
  _game_lost : bool;
  _game_won : option bool
}.

Definition with_field (a : ndarray) (self : Minefield) : Minefield :=
  mk_Minefield (mine_amnt self) (width self) (height self) a
    (field_map self) (_game_lost self) (_game_won self).

Definition with_field_map (a : ndarray) (self : Minefield) : Minefield :=
  mk_Minefield (mine_amnt self) (width self) (height self) (field self)
    a (_game_lost self) (_game_won self).

Definition with_game_lost (b : bool) (self : Minefield) : Minefield :=
  mk_Minefield (mine_amnt self) (width self) (height self) (field self)
    (field_map self) b (_game_won self).

Definition with_game_won (b : option bool) (self : Minefield) : Minefield :=
  mk_Minefield (mine_amnt self) (width self) (height self) (field self)
    (field_map self) (_game_lost self) b.

Definition M (A : Type) : Type := Minefield → result A * Minefield.

Global Instance M_ret : MRet M := λ A a self, (Ok a, self).

Global Instance M_bind : MBind M := λ A B f m self,
  match m self with
  | (Ok a, self') => f a self'
  | (Raise e, self') => (Raise e, self')
  | (OutOfFuel, self') => (OutOfFuel, self')
  end.

Definition gets {A} (f : Minefield → A) : M A := λ self, (Ok (f self), self).
Definition modify (f : Minefield → Minefield) : M unit :=
  λ self, (Ok tt, f self).
Definition raise {A} (e : exn) : M A := λ self, (Raise e, self).
Definition out_of_fuel {A} : M A := λ self, (OutOfFuel, self).

(** [for x in l: body(x)] *)
Fixpoint for_each {A} (l : list A) (body : A → M unit) : M unit :=
  match l with
  | [] => mret tt
  | x :: l' => body x ;; for_each l' body
  end.

(** [for x in l: acc = body(acc, x)], for the loops that build a value. *)
Fixpoint for_fold {A B} (l : list A) (acc : B) (body : B → A → M B) : M B :=
  match l with
  | [] => mret acc
  | x :: l' => acc' ← body acc x; for_fold l' acc' body
  end.

(** [range(lo, hi)] *)
Definition range (lo hi : Z) : list Z :=
  (λ i : nat, lo + Z.of_nat i) <$> seq 0 (Z.to_nat (hi - lo)).

(** What numpy raises when it converts an index to its index type, a signed
    64-bit integer: nothing for an index that fits; OverflowError for one
    from 2^63 to 2^64 - 1, which numpy holds as an unsigned integer first;
    IndexError for one further out, which it holds as an object. *)
Definition convert_error (i : Z) : option exn :=
  if decide (- 2 ^ 63 ≤ i ∧ i < 2 ^ 63) then None
  else if decide (2 ^ 63 ≤ i ∧ i < 2 ^ 64) then Some OverflowError
  else Some IndexError.

(** The exception of [a[row, col]] where it has no value: numpy converts
    the row, then the column, and only then compares them with the shape,
    which gives IndexError. *)
Definition index_error (row col : Z) : exn :=
  match convert_error row with
  | Some e => e
  | None => default IndexError (convert_error col)
  end.

(** [self.field[row, col]] and [self.field_map[row, col]], read and written. *)
Definition get_field (row col : Z) : M Z := λ self,
  match getitem (field self) row col with
  | Some v => (Ok v, self)
  | None => (Raise (index_error row col), self)
  end.

Definition set_field (row col v : Z) : M unit := λ self,
  match setitem (field self) row col v with
  | Some a => (Ok tt, with_field a self)
  | None => (Raise (index_error row col), self)
  end.

Definition get_field_map (row col : Z) : M Z := λ self,
  match getitem (field_map self) row col with
  | Some v => (Ok v, self)
  | None => (Raise (index_error row col), self)
  end.

Definition set_field_map (row col v : Z) : M unit := λ self,
  match setitem (field_map self) row col v with
  | Some a => (Ok tt, with_field_map a self)
  | None => (Raise (index_error row col), self)
  end.

(** ** The methods *)

(** The class attribute: mine amount, width and height of each mode. *)
Definition __diff_mode : gmap string (Z * Z * Z) :=
  {[ "EASY" := (10, 8, 8); "MED" := (40, 15, 15); "HARD" := (40, 30, 16) ]}.

(** [__surrounds]: the eight candidate coordinates, built from the two
    Python lists, then those within bounds. *)
Definition sur_locs (loc_row loc_col : Z) : list (Z * Z) :=
  let sur_row := replicate 3 (loc_row - 1) ++ replicate 2 loc_row
                   ++ replicate 3 (loc_row + 1) in
  let sur_col := mjoin (replicate 3 [loc_col - 1; loc_col; loc_col + 1]) in
  let sur_col := delete 4%nat sur_col in
  zip sur_row sur_col.

Definition __surrounds (self : Minefield) (loc_row loc_col : Z) : list (Z * Z) :=
  filter (λ p, (0 ≤ p.1 ∧ p.1 < height self) ∧ (0 ≤ p.2 ∧ p.2 < width self))
    (sur_locs loc_row loc_col).

Section Construction.

(** [np.random.shuffle], in place on a one-dimensional array. *)
Variable shuffle : list Z → list Z.

(** [self.field[:self.mine_amnt] = np.full((self.mine_amnt), -1)]: numpy
    refuses a negative size and a right-hand side longer than the slice
    (unless it has one element, which broadcasts). *)
Definition assign_prefix (flat : list Z) (k : Z) : option (list Z) :=
  if decide (0 ≤ k ∧ (k ≤ Z.of_nat (length flat) ∨ k = 1))
  then Some (take (length flat) (full k (-1)) ++ drop (Z.to_nat k) flat)
  else None.

(** A zero array of size height * width, its first [mine_amnt] entries set
    to -1, shuffled, then reshaped to height rows of width columns.
    [self.field] is bound to the one-dimensional array first: where the
    slice assignment or the reshape raises, that is what it holds. *)
Definition __create_field : M unit := λ self,
  if decide (height self * width self < 0) then (Raise ValueError, self)
  else
    let zero := zeros (height self * width self) in
    match assign_prefix zero (mine_amnt self) with
    | None => (Raise ValueError, with_field (array1d zero) self)
    | Some flat =>
        match reshape (shuffle flat) (height self) (width self) with
        | None => (Raise ValueError, with_field (array1d (shuffle flat)) self)
        | Some a => (Ok tt, with_field a self)
        end
    end.

(** For every mine, each of its neighbours that is not a mine counts one
    more. *)
Definition __locate_mines : M unit :=
  mine_locs ← gets (λ self, nonzero (field self));
  for_each mine_locs (λ m,
    sur ← gets (λ self, __surrounds self m.1 m.2);
    for_each sur (λ p,
      v ← get_field p.1 p.2;
      if decide (v ≠ -1) then set_field p.1 p.2 (v + 1) else mret tt)).

(** The object as [__init__] receives it: no instance attribute yet
    (the arrays are placeholders until they are assigned). *)
Definition fresh_object : Minefield :=
  mk_Minefield 0 0 0 (mk_ndarray 0 0 []) (mk_ndarray 0 0 []) false None.

(** The table lookup raises KeyError on a mode it does not hold. *)
Definition __init__ (mode : string) : M unit :=
  cfg ← match __diff_mode !! mode with
        | Some cfg => mret cfg
        | None => raise KeyError
        end;
  modify (λ self, mk_Minefield cfg.1.1 cfg.1.2 cfg.2 (field self)
                    (field_map self) (_game_lost self) (_game_won self)) ;;
  __create_field ;;
  __locate_mines ;;
  modify (λ self, with_field_map (zeros2 (height self) (width self)) self).

(** [Minefield(mode)] *)
Definition new (mode : string) : result unit * Minefield :=
  __init__ mode fresh_object.

End Construction.

(** [dig] calls itself on the neighbours of a zero cell; [fuel] is the
    depth of call stack it may use. *)
Fixpoint dig (fuel : nat) (loc_row loc_col : Z) : M unit :=
  match fuel with
  | O => out_of_fuel
  | S fuel =>
      v ← get_field_map loc_row loc_col;
      if decide (v = 0) then
        set_field_map loc_row loc_col 1 ;;
        f ← get_field loc_row loc_col;
        if decide (f = -1) then modify (with_game_lost true)
        else if decide (f = 0) then
          sur ← gets (λ self, __surrounds self loc_row loc_col);
          for_each sur (λ p, dig fuel p.1 p.2)
        else mret tt
      else mret tt
  end.

(** Buried becomes flagged, flagged becomes buried. *)
Definition flag (loc_row loc_col : Z) : M unit :=
  v ← get_field_map loc_row loc_col;
  if decide (v = 0) then set_field_map loc_row loc_col 2
  else
    v ← get_field_map loc_row loc_col;
    if decide (v = 2) then set_field_map loc_row loc_col 0 else mret tt.

(** [t * n] on a string, the format [f'{t : <2}'], and the line feed. *)
Fixpoint str_mul (t : string) (n : nat) : string :=
  match n with
  | O => EmptyString
  | S n => t +:+ str_mul t n
  end.

Definition ljust2 (t : string) : string :=
  t +:+ str_mul " " (2 - String.length t).

Definition newline : string := String (Ascii.ascii_of_nat 10) EmptyString.

(** The text of the minefield: a header of column numbers, a barrier, a
    line for each row, the barrier and the header again. *)
Definition __str__ : M string :=
  w ← gets width;
  h ← gets height;
  let col_str :=
    str_mul " " 7
    +:+ String.concat " " ((λ i, ljust2 (pretty i)) <$> range 1 (w + 1)) in
  let barrier := str_mul " " 3 +:+ str_mul "=" (Z.to_nat (w * 3 + 6)) in
  let string := col_str +:+ newline +:+ barrier +:+ newline in
  string ← for_fold (range 0 h) string (λ string row,
    let row_str := ljust2 (pretty (row + 1)) +:+ " || " in
    row_str ← for_fold (range 0 w) row_str (λ row_str col,
      v ← get_field_map row col;
      if decide (v = 0) then mret (row_str +:+ " - ")
      else
        v ← get_field_map row col;
        if decide (v = 2) then mret (row_str +:+ " F ")
        else
          v ← get_field_map row col;
          if decide (v = 1) then
            s ← get_field row col;
            if decide (s = -1) then mret (row_str +:+ " M ")
            else mret (row_str +:+ " " +:+ pretty s +:+ " ")
          else mret row_str);
    mret (string +:+ row_str +:+ " || " +:+ pretty (row + 1) +:+ newline));
  mret (string +:+ barrier +:+ newline +:+ col_str +:+ newline).

(** The two properties. [game_won] stores its answer in [_game_won]
    before it returns it. *)
Definition game_lost : M bool := gets _game_lost.

(** [return self._game_won] *)
Definition read_game_won : M bool :=
  cache ← gets _game_won;
  match cache with
  | Some b => mret b
  | None => raise AttributeError
  end.

Definition game_won : M bool :=
  modify (with_game_won (Some false)) ;;
  lost ← game_lost;
  _ ← (if negb lost then
         n ← gets (λ self, count_eq (field_map self) 1);
         safe ← gets (λ self, height self * width self - mine_amnt self);
         if decide (n = safe) then modify (with_game_won (Some true))
         else mret tt
       else mret tt);
  read_game_won.

(** ** The console game *)

(** [play] talks to the console: what it writes and asks is kept as a list
    of events, what the player types is a list of lines, one for each call
    of [input]; [input] with no line left raises EOFError, here the outcome
    [EndOfInput].  As for [dig], the depth of call stack is fuel. *)
Inductive event :=
  | Printed (text : string)
  | Asked (prompt : string).

Record console := mk_console {
  stdin : list string;
  stdout : list event;
  games : nat
}.

Inductive outcome (A : Type) :=
  | Returned (a : A)
  | Crashed (e : exn)
  | EndOfInput
  | OutOfStack.
Arguments Returned {A} a.
Arguments Crashed {A} e.
Arguments EndOfInput {A}.
Arguments OutOfStack {A}.

Definition IO (A : Type) : Type := console → outcome A * console.

Global Instance IO_ret : MRet IO := λ A a w, (Returned a, w).

Global Instance IO_bind : MBind IO := λ A B f m w,
  match m w with
  | (Returned a, w') => f a w'
  | (Crashed e, w') => (Crashed e, w')
  | (EndOfInput, w') => (EndOfInput, w')
  | (OutOfStack, w') => (OutOfStack, w')
  end.

Definition out_of_stack {A} : IO A := λ w, (OutOfStack, w).
Definition crash {A} (e : exn) : IO A := λ w, (Crashed e, w).

(** [print(text)] *)
Definition print (text : string) : IO unit := λ w,
  (Returned tt, mk_console (stdin w) (stdout w ++ [Printed text]) (games w)).

(** [input(prompt)] *)
Definition input (prompt : string) : IO string := λ w,
  match stdin w with
  | [] => (EndOfInput, mk_console [] (stdout w ++ [Asked prompt]) (games w))
  | line :: rest =>
      (Returned line, mk_console rest (stdout w ++ [Asked prompt]) (games w))
  end.

(** A method called on the local [game]: its value and the object after. *)
Definition call {A} (c : M A) (game : Minefield) : IO (A * Minefield) := λ w,
  match c game with
  | (Ok a, game') => (Returned (a, game'), w)
  | (Raise e, _) => (Crashed e, w)
  | (OutOfFuel, _) => (OutOfStack, w)
  end.

(** [print(game)] *)
Definition print_game (game : Minefield) : IO unit :=
  text ← call __str__ game; print text.1.

(** [i.split(' ')]: cut at every space, empty pieces kept. *)
Fixpoint split_space (i : string) : list string :=
  match i with
  | EmptyString => [EmptyString]
  | String c rest =>
      if decide (c = " "%char) then EmptyString :: split_space rest
      else match split_space rest with
           | piece :: pieces => String c piece :: pieces
           | [] => [String c EmptyString]
           end
  end.

Definition tab : string := String (Ascii.ascii_of_nat 9) EmptyString.

(** The text [htp]. *)
Definition htp : string :=
  newline
  +:+ "The goal of the game is to find where all mines in a minefield are located without accidentally triggering a landmine!" +:+ newline
  +:+ "There are two actions that you can complete to acheive this goal." +:+ newline
  +:+ "Dig: Reveals the status of an undug location (represented by '-')." +:+ newline
  +:+ tab +:+ " If a mine (represented by 'M') is revealed, you lose." +:+ newline
  +:+ tab +:+ " If a number is revealed, that is the amount of mines in the location's immediate surroundings (diagonals included)." +:+ newline
  +:+ tab +:+ " If a zero is revealed, the location's surroundings will be automatically dug up for you as there are no mines." +:+ newline
  +:+ "Flag: Updates the mine status of an undug location." +:+ newline
  +:+ tab +:+ " If there is an undug location, the location becomes flagged (represented by 'F')." +:+ newline
  +:+ tab +:+ " If there is a flagged location, the location returns to an undug status." +:+ newline
  +:+ tab +:+ " Locations that are flagged represent that a mine is present and cannot be dug up." +:+ newline
  +:+ "To complete an action at a specific location:" +:+ newline
  +:+ tab +:+ " Type the first letter of the respective action followed by the desired location." +:+ newline
  +:+ tab +:+ " For example, to dig at the location 5 rows down 6 columns over, type 'D 5 6'." +:+ newline
  +:+ "To win the game, all non-mine locations must be dug up! (Mines can either be flagged of left undug)" +:+ newline.
(** How an iteration of the game loop ends: on with the object, or out. *)
Inductive flow :=
  | Continue (game : Minefield)
  | Break.

Section Play.

(** [str.upper] and [int] of Python, the latter with [None] for the
    ValueError it raises; the shuffle of the n-th game. *)
Variable upper : string → string.
Variable int : string → option Z.
Variable shuffle : nat → list Z → list Z.

(** [Minefield(diff)] *)
Definition Minefield_new (diff : string) : IO Minefield := λ w,
  let w' := mk_console (stdin w) (stdout w) (S (games w)) in
  match new (shuffle (games w)) diff with
  | (Ok _, game) => (Returned game, w')
  | (Raise e, _) => (Crashed e, w')
  | (OutOfFuel, _) => (OutOfStack, w')
  end.

(** [int(text) - 1] *)
Definition int_minus_1 (text : string) : IO Z :=
  match int text with
  | Some n => mret (n - 1)
  | None => crash ValueError
  end.

(** The loop [while htp_input]. *)
Fixpoint htp_loop (fuel : nat) : IO unit :=
  match fuel with
  | O => out_of_stack
  | S fuel =>
      h ← input "Would you like to see how to play? (Y/N): ";
      if decide (upper h = "Y") then print htp
      else if decide (upper h ≠ "N") then
        print "I am sorry, input not recognized!" ;; htp_loop fuel
      else mret tt
  end.

(** The loop [while diff_input], returning [diff]. *)
Fixpoint diff_loop (fuel : nat) : IO string :=
  match fuel with
  | O => out_of_stack
  | S fuel =>
      d ← input "Please select one of the following gamemodes - Easy (E), Medium (M), Hard (H): ";
      if decide (upper d = "E") then mret "EASY"
      else if decide (upper d = "M") then mret "MED"
      else if decide (upper d = "H") then mret "HARD"
      else print "I am sorry, input not recognized!" ;; diff_loop fuel
  end.

(** The body of [while True] from the line read on.  [dig] is given a
    stack of one frame more than the board has cells, which its flood fill
    never needs more than. *)
Definition turn (game : Minefield) (i : string) : IO flow :=
  match split_space i with
  | [action; y_coord; x_coord] =>
      let action := upper action in
      y_coord ← int_minus_1 y_coord;
      x_coord ← int_minus_1 x_coord;
      if decide (action ≠ "D" ∧ action ≠ "F") then
        print "Action not recognized. Try again!" ;; mret (Continue game)
      else if decide (¬ (0 ≤ y_coord ∧ y_coord < height game)) then
        print "Row location is out of bounds. Try again!" ;;
        mret (Continue game)
      else if decide (¬ (0 ≤ x_coord ∧ x_coord < width game)) then
        print "Column location is out of bounds. Try again!" ;;
        mret (Continue game)
      else if decide (action = "D") then
        dug ← call (dig (S (Z.to_nat (height game * width game)))
                      y_coord x_coord) game;
        lost ← call game_lost dug.2;
        if (lost.1 : bool) then
          print_game lost.2 ;;
          print "BOOOOOOM!!!!! Oh no! You hit a mine and have lost!" ;;
          mret Break
        else
          won ← call game_won lost.2;
          if (won.1 : bool) then
            print_game won.2 ;;
            print "CONGRADULATIONS!!!!! You have successfully navigated the minefield!" ;;
            mret Break
          else mret (Continue won.2)
      else if decide (action = "F") then
        flagged ← call (flag y_coord x_coord) game;
        mret (Continue flagged.2)
      else mret (Continue game)
  | _ =>
      print "Coordinate seems incorrect. Try again!" ;; mret (Continue game)
  end.

(** The loop [while True]. *)
Fixpoint game_loop (fuel : nat) (game : Minefield) : IO unit :=
  match fuel with
  | O => out_of_stack
  | S fuel =>
      print_game game ;;
      i ← input "Please input next move: ";
      next ← turn game i;
      match next with
      | Continue game => game_loop fuel game
      | Break => mret tt
      end
  end.

Fixpoint play (fuel : nat) : IO unit :=
  match fuel with
  | O => out_of_stack
  | S fuel' =>
      print "Welcome to Minesweeper - Olivia's Version!" ;;
      htp_loop fuel ;;
      diff ← diff_loop fuel;
      game ← Minefield_new diff;
      game_loop fuel game ;;
      again ← input "Would you like to play again? (Y/N): ";
      if decide (again ≠ EmptyString) then play fuel'
      else print "Thanks for playing!"
  end.

End Play.

(** * The vocabulary of the properties *)

(** ** Grids and states *)

(** A coordinate within the bounds of an array of [h] rows, [w] columns. *)
Definition inb (h w : Z) (p : Z * Z) : Prop :=
  (0 ≤ p.1 ∧ p.1 < h) ∧ (0 ≤ p.2 ∧ p.2 < w).

(** An array of shape ([h], [w]), with a buffer of that size. *)
Record shape_ok (a : ndarray) (h w : Z) : Prop := {
  shape_rows : nrows a = h;
  shape_cols : ncols a = w;
  shape_h : 0 ≤ h;
  shape_w : 0 ≤ w;
  shape_len : length (data a) = Z.to_nat (h * w)
}.

(** The place of a coordinate in the row-major buffer, and back. *)
Definition idx (w : Z) (p : Z * Z) : nat := Z.to_nat (p.1 * w + p.2).

Definition unravel (w : Z) (i : nat) : Z * Z :=
  (Z.of_nat i `div` w, Z.of_nat i `mod` w).

(** All the coordinates of a grid, row by row. *)
Definition cells (h w : Z) : list (Z * Z) :=
  unravel w <$> seq 0 (Z.to_nat (h * w)).

(** The entry at a coordinate within bounds (0 elsewhere). *)
Definition cell (a : ndarray) (p : Z * Z) : Z :=
  default 0 (data a !! idx (ncols a) p).

(** The two grids have the shape the object records. *)
Record wf (s : Minefield) : Prop := {
  wf_field : shape_ok (field s) (height s) (width s);
  wf_field_map : shape_ok (field_map s) (height s) (width s)
}.

(** A coordinate within [0, height) x [0, width). *)
Definition in_bounds (s : Minefield) (p : Z * Z) : Prop :=
  inb (height s) (width s) p.

(** Visibility (0 buried, 1 dug, 2 flagged) and board value (-1 mine). *)
Definition vis (s : Minefield) (p : Z * Z) : Z := cell (field_map s) p.
Definition val (s : Minefield) (p : Z * Z) : Z := cell (field s) p.

(** The number of buried cells. *)
Definition buried_count (s : Minefield) : nat :=
  length (filter (λ x, x = 0) (data (field_map s))).

(** ** What a computation preserves *)

(** Whatever the outcome (value, exception, exhausted fuel), the state
    the computation leaves is related to the one it started from. *)
Definition steps (R : relation Minefield) {A} (c : M A) : Prop :=
  ∀ s, R s (c s).2.

(** An attribute that a step leaves as it is. *)
Definition keeps {A} (f : Minefield → A) : relation Minefield :=
  λ s s', f s' = f s.

(** [dig] and [flag] write [field_map] and [_game_lost] only. *)
Definition geometry (s : Minefield) : Z * Z * Z * ndarray * option bool :=
  (mine_amnt s, width s, height s, field s, _game_won s).

(** Once set, the lost flag stays set. *)
Definition stays_lost : relation Minefield :=
  λ s s', _game_lost s = true → _game_lost s' = true.

(** Running [c] with another cached value gives the same outcome and the
    same state, up to that value. *)
Definition ignores_cache (x : option bool) {A} (c : M A) : Prop :=
  ∀ s, c (with_game_won x s) = ((c s).1, with_game_won x (c s).2).

(** ** The flood fill *)

(** The state after [self.field_map[p] = v]. *)
Definition mark (s : Minefield) (p : Z * Z) (v : Z) : Minefield :=
  with_field_map
    (mk_ndarray (nrows (field_map s)) (ncols (field_map s))
       (<[idx (ncols (field_map s)) p := v]> (data (field_map s)))) s.

(** [q] was buried in [s] and is dug in [s']. *)
Definition newly (s s' : Minefield) (q : Z * Z) : Prop :=
  vis s q = 0 ∧ vis s' q = 1.

(** [s'] is [s] after some buried cells were dug. *)
Record grows (s s' : Minefield) : Prop := {
  grows_geometry : geometry s' = geometry s;
  grows_wf : wf s';
  grows_mono : ∀ q, in_bounds s q → vis s' q = vis s q ∨ newly s s' q;
  grows_count : (buried_count s' ≤ buried_count s)%nat;
  grows_lost : _game_lost s' = true ↔
               _game_lost s = true ∨
               ∃ q, in_bounds s q ∧ newly s s' q ∧ val s q = -1
}.

(** Every zero cell dug on the way has no buried neighbour left. *)
Definition closed_in (s s' : Minefield) : Prop :=
  ∀ q n, in_bounds s q → newly s s' q → val s q = 0 →
         n ∈ __surrounds s q.1 q.2 → vis s' n ≠ 0.

(** The cells the flood started at [p] runs over: [p] when it is buried,
    and from a buried zero cell on to its neighbours. *)
Inductive reach (s : Minefield) : Z * Z → Z * Z → Prop :=
  | reach_here p :
      in_bounds s p → vis s p = 0 → reach s p p
  | reach_next p n q :
      in_bounds s p → vis s p = 0 → val s p = 0 →
      n ∈ __surrounds s p.1 p.2 → reach s n q → reach s p q.

(** What a call [dig p] that returns has done. *)
Record dig_post (s : Minefield) (p : Z * Z) (s' : Minefield) : Prop := {
  post_grows : grows s s';
  post_closed : closed_in s s';
  post_here : vis s' p ≠ 0;
  post_reach : ∀ q, in_bounds s q → newly s s' q → reach s p q
}.

(** ** Neighbours, the zero region and the adjacency counts *)

(** Horizontal, vertical and diagonal neighbours. *)
Definition adjacent (p n : Z * Z) : Prop :=
  n ≠ p ∧ (-1 ≤ n.1 - p.1 ∧ n.1 - p.1 ≤ 1) ∧ (-1 ≤ n.2 - p.2 ∧ n.2 - p.2 ≤ 1).

(** The contiguous zero cells around a zero cell [p]. *)
Inductive zero_region (s : Minefield) (p : Z * Z) : Z * Z → Prop :=
  | zero_region_here :
      in_bounds s p → val s p = 0 → zero_region s p p
  | zero_region_next z n :
      zero_region s p z → in_bounds s n → adjacent z n → val s n = 0 →
      zero_region s p n.

(** The region and the cells that border it. *)
Definition revealed (s : Minefield) (p q : Z * Z) : Prop :=
  ∃ z, zero_region s p z ∧ (q = z ∨ (in_bounds s q ∧ adjacent z q)).

(** The number of mines among the cells [__surrounds] lists. *)
Definition mines_around (s : Minefield) (p : Z * Z) : Z :=
  Z.of_nat (length (filter (λ n, val s n = -1) (__surrounds s p.1 p.2))).

(** The board after the adjacency pass: a cell that is not a mine holds
    the number of mines that touch it. *)
Definition adjacency_ok (s : Minefield) : Prop :=
  ∀ p, in_bounds s p → val s p ≠ -1 → val s p = mines_around s p.

(** ** Win, loss and sequences of calls *)

(** Not lost, and as many dug cells as there are cells without a mine. *)
Definition all_safe_dug (s : Minefield) : bool :=
  bool_decide (_game_lost s = false ∧
               count_eq (field_map s) 1 = height s * width s - mine_amnt s).

(** The calls a player of the object can make. *)
Inductive op :=
  | Dig (fuel : nat) (row col : Z)
  | Flag (row col : Z)
  | Str
  | GameWon
  | GameLost.

(** The object after a call, whether it returned or raised. *)
Definition exec (o : op) (s : Minefield) : Minefield :=
  match o with
  | Dig fuel row col => (dig fuel row col s).2
  | Flag row col => (flag row col s).2
  | Str => (__str__ s).2
  | GameWon => (game_won s).2
  | GameLost => (game_lost s).2
  end.

(** The object after a sequence of calls. *)
Definition exec_all (os : list op) (s : Minefield) : Minefield :=
  foldl (λ s o, exec o s) s os.

(** ** The trace of a flood fill *)

(** [for x in l: body(x)], the bodies' traces appended. *)
Fixpoint for_each_log {A B} (l : list A) (body : A → M (list B)) : M (list B) :=
  match l with
  | [] => mret []
  | x :: l' => v ← body x; vs ← for_each_log l' body; mret (v ++ vs)
  end.

(** [dig], returning the coordinates at which it ran
    [self.field_map[loc_row, loc_col] = 1], in the order it did. *)
Fixpoint dig_log (fuel : nat) (loc_row loc_col : Z) : M (list (Z * Z)) :=
  match fuel with
  | O => out_of_fuel
  | S fuel =>
      v ← get_field_map loc_row loc_col;
      if decide (v = 0) then
        set_field_map loc_row loc_col 1 ;;
        f ← get_field loc_row loc_col;
        if decide (f = -1) then
          modify (with_game_lost true) ;; mret [(loc_row, loc_col)]
        else if decide (f = 0) then
          sur ← gets (λ self, __surrounds self loc_row loc_col);
          rest ← for_each_log sur (λ p, dig_log fuel p.1 p.2);
          mret ((loc_row, loc_col) :: rest)
        else mret [(loc_row, loc_col)]
      else mret []
  end.

(** Forgetting the value a computation returns. *)
Definition forget {A} (x : result A * Minefield) : result unit * Minefield :=
  (match x.1 with Ok _ => Ok tt | Raise e => Raise e | OutOfFuel => OutOfFuel end,
   x.2).

(** The trace lists, without repetition, the cells the call has dug; it is
    as long as the number of buried cells has dropped. *)
Record log_post (s s' : Minefield) (l : list (Z * Z)) : Prop := {
  log_NoDup : NoDup l;
  log_elem : ∀ q, q ∈ l ↔ in_bounds s q ∧ newly s s' q;
  log_count : (buried_count s' + length l = buried_count s)%nat
}.

(** ** The adjacency pass *)

(** How often [q] occurs in [l]. *)
Definition occurrences (q : Z * Z) (l : list (Z * Z)) : Z :=
  Z.of_nat (length (filter (λ x, x = q) l)).

(** The body of the inner loop of [__locate_mines]. *)
Definition bump (p : Z * Z) : M unit :=
  v ← get_field p.1 p.2;
  if decide (v ≠ -1) then set_field p.1 p.2 (v + 1) else mret tt.

(** What the pass does not write. *)
Definition besides_field (s : Minefield) : Z * Z * Z * ndarray * bool * option bool :=
  (mine_amnt s, width s, height s, field_map s, _game_lost s, _game_won s).

(** The board as [__create_field] leaves it: mines and zeros. *)
Record placed (s : Minefield) : Prop := {
  placed_shape : shape_ok (field s) (height s) (width s);
  placed_cells : ∀ p, in_bounds s p → val s p = -1 ∨ val s p = 0
}.

(** After the neighbours in [d] of some mines were bumped. *)
Record counted (s : Minefield) (d : list (Z * Z)) (t : Minefield) : Prop := {
  counted_besides : besides_field t = besides_field s;
  counted_shape : shape_ok (field t) (height s) (width s);
  counted_cells : ∀ q, in_bounds s q →
    val t q = if decide (val s q = -1) then -1 else occurrences q d
}.

(** ** A concrete board *)

(** The easy board when the shuffle leaves the array as it is: the ten
    mines fill the first row and the first two cells of the second. *)
Definition easy_board : Minefield := (new (λ l, l) "EASY").2.

(** ** Calls at any coordinate, and what a game keeps *)

(** The cell numpy reads at a raw coordinate: a negative index counts from
    the end of its axis, an index out of range has no cell. *)
Definition norm_coord (s : Minefield) (r c : Z) : option (Z * Z) :=
  r' ← norm_index r (height s); c' ← norm_index c (width s); Some (r', c').

(** A mine lies dug. *)
Definition mine_dug (s : Minefield) : Prop :=
  ∃ q, in_bounds s q ∧ vis s q = 1 ∧ val s q = -1.

(** [s'] is [s] after some calls of the methods: the board and its size
    are kept, a dug cell stays dug, any other cell stays or becomes buried,
    flagged or dug, and the lost flag is raised exactly by a mine newly
    dug. *)
Record plays (s s' : Minefield) : Prop := {
  plays_board : (mine_amnt s', width s', height s', field s')
                = (mine_amnt s, width s, height s, field s);
  plays_wf : wf s';
  plays_dug : ∀ q, in_bounds s q → vis s q = 1 → vis s' q = 1;
  plays_vis : ∀ q, in_bounds s q → vis s' q ≠ vis s q →
                (vis s q = 0 ∨ vis s q = 2) ∧
                (vis s' q = 0 ∨ vis s' q = 1 ∨ vis s' q = 2);
  plays_lost : _game_lost s' = true ↔
               _game_lost s = true ∨
               ∃ q, in_bounds s q ∧ vis s q ≠ 1 ∧ vis s' q = 1 ∧ val s q = -1
}.

(** The relation a call keeps, from a well-formed object on. *)
Definition game_step : relation Minefield := λ s s', wf s → plays s s'.

(** The lost flag tells that a mine lies dug. *)
Record consistent (s : Minefield) : Prop := {
  consistent_wf : wf s;
  consistent_lost : _game_lost s = true ↔ mine_dug s
}.

(** The relation a call of [dig] keeps, from a well-formed object on. *)
Definition dig_step : relation Minefield := λ s s', wf s → grows s s'.

(** The object after [flag] at the cell [p]. *)
Definition toggled (s : Minefield) (p : Z * Z) : Minefield :=
  if decide (vis s p = 0) then mark s p 2
  else if decide (vis s p = 2) then mark s p 0 else s.

(** On the two objects [c] returns the same value and changes neither. *)
Definition agree (s1 s2 : Minefield) {A} (c : M A) (v : A) : Prop :=
  c s1 = (Ok v, s1) ∧ c s2 = (Ok v, s2).

(** ** The console game *)

(** A computation reads lines from the front of the input, and nothing
    else of it. *)
Definition reads {A} (c : IO A) : Prop :=
  ∀ w, stdin (c w).2 `suffix_of` stdin w.


(** [int] on the decimal numerals with an optional sign, the reading used
    in the examples. *)
Definition int10 (text : string) : option Z :=
  Z.of_int <$> NilZero.int_of_string text.

(** A shuffle that leaves the order as it is, for the examples. *)
Definition unshuffled (n : nat) (l : list Z) : list Z := l.

(** The console before a session with the given answers. *)
Definition answers (lines : list string) : console := mk_console lines [] 0.

(** * Lemmas *)

(** ** Arrays of a known shape *)

Lemma norm_index_inb i n : 0 ≤ i → i < n → norm_index i n = Some i.
Proof.
  intros. unfold norm_index.
  destruct (Z.leb_spec 0 i), (Z.ltb_spec i n); simpl; auto; lia.
Qed.

Lemma norm_index_wrap i n : - n ≤ i → i < 0 → norm_index i n = Some (i + n).
Proof.
  intros. unfold norm_index.
  destruct (Z.leb_spec 0 i), (Z.ltb_spec i n), (Z.leb_spec (- n) i),
    (Z.ltb_spec i 0); simpl; auto; lia.
Qed.

Lemma norm_index_out i n : i < - n ∨ n ≤ i → 0 ≤ n → norm_index i n = None.
Proof.
  intros. unfold norm_index.
  destruct (Z.leb_spec 0 i), (Z.ltb_spec i n), (Z.leb_spec (- n) i),
    (Z.ltb_spec i 0); simpl; auto; lia.
Qed.

Lemma idx_lt h w p : inb h w p → (idx w p < Z.to_nat (h * w))%nat.
Proof. unfold inb, idx. intros. apply Z2Nat.inj_lt; nia. Qed.

Lemma idx_inj h w p q : inb h w p → inb h w q → idx w p = idx w q → p = q.
Proof.
  unfold inb, idx. destruct p as [r c], q as [r' c']; simpl. intros Hp Hq E.
  apply Z2Nat.inj in E; [|nia..].
  assert (r = r') by nia. subst. f_equal. lia.
Qed.

Section Shape.

Context (a : ndarray) (h w : Z) (Ha : shape_ok a h w).

Lemma offset_inb p : inb h w p → offset a p.1 p.2 = Some (idx w p).
Proof.
  intros [[] []]. unfold offset.
  rewrite (shape_rows _ _ _ Ha), (shape_cols _ _ _ Ha).
  rewrite !norm_index_inb by lia. reflexivity.
Qed.

Lemma getitem_inb p : inb h w p → getitem a p.1 p.2 = Some (cell a p).
Proof.
  intros Hp. unfold getitem, cell. rewrite (offset_inb _ Hp). simpl.
  rewrite (shape_cols _ _ _ Ha).
  destruct (lookup_lt_is_Some_2 (data a) (idx w p)) as [v Hv].
  { rewrite (shape_len _ _ _ Ha). by eapply idx_lt. }
  by rewrite Hv.
Qed.

Lemma setitem_inb p v :
  inb h w p →
  ∃ a', setitem a p.1 p.2 v = Some a' ∧ shape_ok a' h w ∧
        data a' = <[idx w p := v]> (data a) ∧
        cell a' p = v ∧ (∀ q, inb h w q → q ≠ p → cell a' q = cell a q).
Proof.
  intros Hp. unfold setitem. rewrite (offset_inb _ Hp). simpl.
  assert (idx w p < length (data a))%nat as Hlt.
  { rewrite (shape_len _ _ _ Ha). by eapply idx_lt. }
  destruct (lookup_lt_is_Some_2 _ _ Hlt) as [v0 Hv0]. rewrite Hv0. simpl.
  eexists. split; [reflexivity|]. destruct Ha. split; [|split; [|split]].
  - split; simpl; auto. by rewrite length_insert.
  - reflexivity.
  - unfold cell; simpl. rewrite shape_cols0.
    by rewrite list_lookup_insert_eq.
  - intros q Hq Hne. unfold cell; simpl. rewrite shape_cols0.
    rewrite list_lookup_insert_ne; [done|].
    intros E. apply Hne. symmetry. by eapply idx_inj.
Qed.

End Shape.

(** Counting the entries that satisfy a predicate, across an update. *)
Lemma length_filter_insert (P : Z → Prop) `{!∀ x, Decision (P x)}
    (l : list Z) (i : nat) (x y : Z) :
  l !! i = Some x →
  (length (filter P (<[i:=y]> l)) + (if decide (P x) then 1 else 0)
   = length (filter P l) + (if decide (P y) then 1 else 0))%nat.
Proof.
  revert i. induction l as [|z l IH]; intros [|i] Hi; simplify_eq/=.
  - rewrite !filter_cons. repeat case_decide; simpl; lia.
  - specialize (IH _ Hi). rewrite !filter_cons.
    repeat case_decide; simpl in *; lia.
Qed.

(** ** Running a computation: what every step preserves *)

Section Steps.

Context (R : relation Minefield) `{!PreOrder R}.

Lemma steps_ret {A} (a : A) : steps R (mret a).
Proof. intros s. simpl. reflexivity. Qed.

Lemma steps_gets {A} (f : Minefield → A) : steps R (gets f).
Proof. intros s. simpl. reflexivity. Qed.

Lemma steps_out_of_fuel {A} : steps R (@out_of_fuel A).
Proof. intros s. simpl. reflexivity. Qed.

Lemma steps_bind {A B} (m : M A) (f : A → M B) :
  steps R m → (∀ a, steps R (f a)) → steps R (m ≫= f).
Proof.
  intros Hm Hf s. unfold mbind, M_bind. specialize (Hm s).
  destruct (m s) as [[a| |] s1]; simpl in *; auto.
  etrans; [exact Hm|]. apply Hf.
Qed.

Lemma steps_for_each {A} (l : list A) (body : A → M unit) :
  (∀ x, x ∈ l → steps R (body x)) → steps R (for_each l body).
Proof.
  induction l as [|x l IH]; intros Hb; simpl.
  - apply steps_ret.
  - apply steps_bind; [apply Hb; left|].
    intros _. apply IH. intros y Hy. apply Hb. by right.
Qed.

Lemma steps_for_fold {A B} (l : list A) (acc : B) (body : B → A → M B) :
  (∀ b a, steps R (body b a)) → steps R (for_fold l acc body).
Proof.
  intros Hb. revert acc. induction l as [|a l IH]; intros acc; simpl.
  - apply steps_ret.
  - apply steps_bind; [apply Hb|]. intros acc'. apply IH.
Qed.

Lemma steps_get_field r c : steps R (get_field r c).
Proof. intros s. unfold get_field. destruct getitem; simpl; reflexivity. Qed.

Lemma steps_get_field_map r c : steps R (get_field_map r c).
Proof.
  intros s. unfold get_field_map. destruct getitem; simpl; reflexivity.
Qed.

Lemma steps_set_field_map r c v :
  (∀ s a, setitem (field_map s) r c v = Some a → R s (with_field_map a s)) →
  steps R (set_field_map r c v).
Proof.
  intros H s. unfold set_field_map.
  destruct setitem eqn:E; simpl; [by apply H | reflexivity].
Qed.

Lemma steps_modify f : (∀ s, R s (f s)) → steps R (modify f).
Proof. intros H s. apply H. Qed.

End Steps.

Global Instance keeps_preorder {A} (f : Minefield → A) : PreOrder (keeps f).
Proof. split; [by intros s | intros s1 s2 s3 H1 H2; unfold keeps in *; congruence]. Qed.

Lemma dig_keeps_geometry fuel r c : steps (keeps geometry) (dig fuel r c).
Proof.
  revert r c. induction fuel as [|fuel IH]; intros r c; simpl.
  - apply steps_out_of_fuel, _.
  - apply steps_bind; [apply _|apply steps_get_field_map, _|]. intros v.
    case_decide; [|apply steps_ret, _].
    apply steps_bind; [apply _|apply steps_set_field_map; [apply _|done]|].
    intros _. apply steps_bind; [apply _|apply steps_get_field, _|]. intros f.
    case_decide; [by apply steps_modify|].
    case_decide; [|apply steps_ret, _].
    apply steps_bind; [apply _|apply steps_gets, _|]. intros sur.
    apply steps_for_each; [apply _|]. intros; apply IH.
Qed.

Lemma flag_keeps r c :
  steps (keeps (λ s, (geometry s, _game_lost s))) (flag r c).
Proof.
  unfold flag.
  apply steps_bind; [apply _|apply steps_get_field_map, _|]. intros v.
  case_decide; [apply steps_set_field_map; [apply _|done]|].
  apply steps_bind; [apply _|apply steps_get_field_map, _|]. intros v'.
  case_decide; [apply steps_set_field_map; [apply _|done]|apply steps_ret, _].
Qed.

Global Instance stays_lost_preorder : PreOrder stays_lost.
Proof.
  split; [intros s H; exact H | intros s1 s2 s3 H1 H2 H; apply H2, H1, H].
Qed.

Lemma dig_stays_lost fuel r c : steps stays_lost (dig fuel r c).
Proof.
  revert r c. induction fuel as [|fuel IH]; intros r c; simpl.
  - apply steps_out_of_fuel, _.
  - apply steps_bind; [apply _|apply steps_get_field_map, _|]. intros v.
    case_decide; [|apply steps_ret, _].
    apply steps_bind; [apply _|apply steps_set_field_map; [apply _|by intros ? ? _ ?]|].
    intros _. apply steps_bind; [apply _|apply steps_get_field, _|]. intros f.
    case_decide; [apply steps_modify; by intros ??|].
    case_decide; [|apply steps_ret, _].
    apply steps_bind; [apply _|apply steps_gets, _|]. intros sur.
    apply steps_for_each; [apply _|]. intros; apply IH.
Qed.

(** ** The methods at a coordinate within bounds *)

Section InBounds.

Context (s : Minefield) (p : Z * Z) (Hwf : wf s) (Hp : in_bounds s p).

Lemma get_field_map_inb : get_field_map p.1 p.2 s = (Ok (vis s p), s).
Proof.
  unfold get_field_map, vis.
  by rewrite (getitem_inb _ _ _ (wf_field_map _ Hwf) _ Hp).
Qed.

Lemma get_field_inb : get_field p.1 p.2 s = (Ok (val s p), s).
Proof.
  unfold get_field, val.
  by rewrite (getitem_inb _ _ _ (wf_field _ Hwf) _ Hp).
Qed.

Lemma set_field_map_inb v : set_field_map p.1 p.2 v s = (Ok tt, mark s p v).
Proof.
  unfold set_field_map, mark, setitem.
  pose proof (wf_field_map _ Hwf) as Ha.
  rewrite (offset_inb _ _ _ Ha _ Hp). simpl.
  destruct (lookup_lt_is_Some_2 (data (field_map s)) (idx (width s) p))
    as [v0 Hv0].
  { rewrite (shape_len _ _ _ Ha). by eapply idx_lt. }
  rewrite Hv0. simpl. by rewrite (shape_cols _ _ _ Ha).
Qed.

Lemma mark_wf v : wf (mark s p v).
Proof.
  destruct Hwf as [Hf [? ? ? ? Hl]]. split; simpl; [done|].
  split; simpl; auto. by rewrite length_insert.
Qed.

Lemma mark_vis v : vis (mark s p v) p = v.
Proof.
  unfold vis, cell, mark; simpl.
  rewrite list_lookup_insert_eq; [done|].
  rewrite (shape_cols _ _ _ (wf_field_map _ Hwf)).
  rewrite (shape_len _ _ _ (wf_field_map _ Hwf)). by eapply idx_lt.
Qed.

Lemma mark_vis_ne v q : in_bounds s q → q ≠ p → vis (mark s p v) q = vis s q.
Proof.
  intros Hq Hne. unfold vis, cell, mark; simpl.
  rewrite list_lookup_insert_ne; [done|].
  rewrite (shape_cols _ _ _ (wf_field_map _ Hwf)).
  intros E. apply Hne. symmetry. by eapply idx_inj.
Qed.

Lemma mark_buried_count v :
  vis s p = 0 → v ≠ 0 → S (buried_count (mark s p v)) = buried_count s.
Proof.
  intros H0 Hv. unfold buried_count, mark; simpl.
  assert (data (field_map s) !! idx (ncols (field_map s)) p = Some 0) as Hl.
  { pose proof (getitem_inb _ _ _ (wf_field_map _ Hwf) _ Hp) as E.
    unfold getitem in E.
    rewrite (offset_inb _ _ _ (wf_field_map _ Hwf) _ Hp) in E. simpl in E.
    rewrite (shape_cols _ _ _ (wf_field_map _ Hwf)), E.
    f_equal. exact H0. }
  pose proof (length_filter_insert (λ x, x = 0) _ _ _ v Hl) as E.
  rewrite decide_True in E by done. rewrite decide_False in E by done. lia.
Qed.

Lemma mark_id : mark s p (vis s p) = s.
Proof.
  unfold mark, vis, cell. destruct s as [m w h f [fr fc fd] l g]; simpl in *.
  unfold with_field_map; simpl. do 2 f_equal.
  apply list_insert_id.
  destruct (lookup_lt_is_Some_2 fd (idx fc p)) as [x Hx]; [|by rewrite Hx].
  destruct Hwf as [_ [? ? ? ? Hl]]; simpl in *. subst.
  rewrite Hl. by eapply idx_lt.
Qed.

Lemma mark_mark v v' : mark (mark s p v) p v' = mark s p v'.
Proof.
  unfold mark, with_field_map; simpl. do 2 f_equal.
  apply list_insert_insert_eq.
Qed.

Lemma flag_inb :
  flag p.1 p.2 s =
    (Ok tt, if decide (vis s p = 0) then mark s p 2
            else if decide (vis s p = 2) then mark s p 0 else s).
Proof.
  unfold flag, mbind, M_bind. rewrite get_field_map_inb.
  case_decide; [apply set_field_map_inb|].
  rewrite get_field_map_inb.
  case_decide; [apply set_field_map_inb|done].
Qed.

Lemma dig_inb fuel :
  dig (S fuel) p.1 p.2 s =
    if decide (vis s p = 0) then
      if decide (val s p = -1) then (Ok tt, with_game_lost true (mark s p 1))
      else if decide (val s p = 0) then
        for_each (__surrounds s p.1 p.2) (λ q, dig fuel q.1 q.2) (mark s p 1)
      else (Ok tt, mark s p 1)
    else (Ok tt, s).
Proof.
  simpl. unfold mbind at 1, M_bind at 1. rewrite get_field_map_inb.
  case_decide; [|done].
  unfold mbind at 1, M_bind at 1. rewrite set_field_map_inb.
  unfold mbind at 1, M_bind at 1.
  assert (get_field p.1 p.2 (mark s p 1) = (Ok (val s p), mark s p 1)) as ->.
  { unfold get_field, mark, val; simpl.
    by rewrite (getitem_inb _ _ _ (wf_field _ Hwf) _ Hp). }
  repeat case_decide; done.
Qed.

End InBounds.

(** ** Loops *)

(** A loop whose body never fails, with an invariant over the elements
    already handled. *)
Lemma for_each_inv {A} (body : A → M unit) (Inv : list A → Minefield → Prop)
    (todo : list A) :
  ∀ done s,
    Inv done s →
    (∀ d x t, x ∈ todo → Inv d t →
       ∃ t', body x t = (Ok tt, t') ∧ Inv (d ++ [x]) t') →
    ∃ s', for_each todo body s = (Ok tt, s') ∧ Inv (done ++ todo) s'.
Proof.
  induction todo as [|x todo IH]; intros done s HI Hbody; simpl.
  - exists s. by rewrite app_nil_r.
  - destruct (Hbody done x s) as (t & Hx & HI'); [left|done|].
    unfold mbind, M_bind. rewrite Hx.
    destruct (IH (done ++ [x]) t HI') as (s' & Hs' & HI'').
    { intros d y u Hy. apply Hbody. by right. }
    exists s'. split; [done|]. by rewrite <- app_assoc in HI''.
Qed.

(** ** The flood fill of [dig] *)

Lemma grows_refl s : wf s → grows s s.
Proof.
  intros Hwf. split; [done|done|by left|done|].
  split; [by left|]. intros [?|(q & _ & [? ?] & _)]; [done|lia].
Qed.

Lemma geometry_eq s s' :
  geometry s' = geometry s →
  mine_amnt s' = mine_amnt s ∧ width s' = width s ∧ height s' = height s ∧
  field s' = field s ∧ _game_won s' = _game_won s.
Proof. unfold geometry. by intros [= -> -> -> -> ->]. Qed.

Lemma grows_in_bounds s s' q : grows s s' → in_bounds s' q ↔ in_bounds s q.
Proof.
  intros [Hg _ _ _ _]. apply geometry_eq in Hg as (_ & Hw & Hh & _).
  unfold in_bounds. by rewrite Hw, Hh.
Qed.

Lemma grows_val s s' q : grows s s' → val s' q = val s q.
Proof.
  intros [Hg _ _ _ _]. apply geometry_eq in Hg as (_ & _ & _ & Hf & _).
  unfold val. by rewrite Hf.
Qed.

Lemma grows_surrounds s s' r c :
  grows s s' → __surrounds s' r c = __surrounds s r c.
Proof.
  intros [Hg _ _ _ _]. apply geometry_eq in Hg as (_ & Hw & Hh & _).
  unfold __surrounds. by rewrite Hw, Hh.
Qed.

Lemma grows_trans s1 s2 s3 : grows s1 s2 → grows s2 s3 → grows s1 s3.
Proof.
  intros H12 H23.
  pose proof (λ q, grows_in_bounds s1 s2 q H12) as Hb.
  pose proof (λ q, grows_val s1 s2 q H12) as Hv.
  destruct H12 as [Hg1 Hw1 Hm1 Hc1 Hl1], H23 as [Hg2 Hw2 Hm2 Hc2 Hl2].
  split; [congruence|done| | lia |].
  - intros q Hq. unfold newly in *.
    destruct (Hm1 q Hq), (Hm2 q (proj2 (Hb q) Hq)); intuition (try lia).
  - rewrite Hl2, Hl1. unfold newly in *. split.
    + intros [[?|(q & Hq & Hn & Hval)]|(q & Hq & Hn & Hval)]; [by left|right..].
      * exists q. specialize (Hm2 q (proj2 (Hb q) Hq)). intuition lia.
      * apply Hb in Hq. exists q. specialize (Hm1 q Hq). rewrite Hv in Hval.
        intuition lia.
    + intros [?|(q & Hq & Hn & Hval)]; [by left; left|].
      destruct (Hm1 q Hq) as [E|Hn1].
      * right. exists q. rewrite Hv, E. apply Hb in Hq. intuition lia.
      * left; right. exists q. intuition lia.
Qed.

Lemma grows_newly_split s1 s2 s3 q :
  grows s1 s2 → grows s2 s3 → in_bounds s1 q → newly s1 s3 q →
  newly s1 s2 q ∨ (vis s2 q = vis s1 q ∧ newly s2 s3 q).
Proof.
  intros H12 H23 Hq [H0 H1]. unfold newly.
  destruct (grows_mono _ _ H12 q Hq) as [E|[? ?]]; [right|left]; lia.
Qed.

Lemma grows_not_buried s s' q :
  grows s s' → in_bounds s q → vis s q ≠ 0 → vis s' q ≠ 0.
Proof.
  intros H Hq Hne. destruct (grows_mono _ _ H q Hq) as [E|[? ?]]; lia.
Qed.

Lemma reach_grows s s' p q : grows s s' → reach s' p q → reach s p q.
Proof.
  intros H. induction 1 as [p Hp H0|p n q Hp H0 Hv Hn _ IH].
  - apply (grows_in_bounds _ _ _ H) in Hp. apply reach_here; [done|].
    destruct (grows_mono _ _ H p Hp) as [E|[? ?]]; lia.
  - apply (grows_in_bounds _ _ _ H) in Hp.
    rewrite (grows_val _ _ _ H) in Hv. rewrite (grows_surrounds _ _ _ _ H) in Hn.
    eapply reach_next; eauto.
    destruct (grows_mono _ _ H p Hp) as [E|[? ?]]; lia.
Qed.

Lemma surrounds_in_bounds s r c n : n ∈ __surrounds s r c → in_bounds s n.
Proof. unfold __surrounds. rewrite list_elem_of_filter. by intros [? _]. Qed.

Lemma grows_mark s p :
  wf s → in_bounds s p → vis s p = 0 →
  grows s (if decide (val s p = -1) then with_game_lost true (mark s p 1)
           else mark s p 1).
Proof.
  intros Hwf Hp H0.
  assert (∀ q, in_bounds s q → vis (mark s p 1) q = vis s q ∨
                               newly s (mark s p 1) q) as Hmono.
  { intros q Hq. destruct (decide (q = p)) as [->|Hne].
    - right. split; [done|]. by apply mark_vis.
    - left. by apply mark_vis_ne. }
  pose proof (mark_buried_count s p Hwf Hp 1 H0 ltac:(done)) as Hcount.
  pose proof (mark_wf s p Hwf 1) as Hwf'.
  case_decide as Hmine; split; try done; try lia.
  - by destruct Hwf'.
  - change (buried_count (mark s p 1) ≤ buried_count s)%nat. lia.
  - simpl. split; [|done]. intros _. right. exists p.
    split; [done|]. split; [|done]. split; [done|]. by apply mark_vis.
  - simpl. split; [by left|]. intros [?|(q & Hq & [Hq0 Hq1] & Hval)]; [done|].
    destruct (decide (q = p)) as [->|Hne]; [done|].
    rewrite mark_vis_ne in Hq1 by done. lia.
Qed.

(** A stack one deeper than the number of buried cells is enough for [dig]
    to return, and then [dig_post] holds. *)
Lemma dig_spec fuel s p :
  wf s → in_bounds s p → (buried_count s < fuel)%nat →
  ∃ s', dig fuel p.1 p.2 s = (Ok tt, s') ∧ dig_post s p s'.
Proof.
  revert s p. induction fuel as [|fuel IH]; intros s p Hwf Hp Hfuel; [lia|].
  rewrite dig_inb by done.
  destruct (decide (vis s p = 0)) as [H0|H0].
  2:{ exists s. split; [done|]. split; [by apply grows_refl| |done|].
      - intros q n _ [? ?]. lia.
      - intros q _ [? ?]. destruct (decide (q = p)) as [->|]; [lia|].
        lia. }
  pose proof (grows_mark s p Hwf Hp H0) as Hg1.
  assert (∀ q, in_bounds s q → newly s (mark s p 1) q → q = p) as Honly.
  { intros q Hq [Hq0 Hq1]. destruct (decide (q = p)) as [|Hne]; [done|].
    rewrite mark_vis_ne in Hq1 by done. lia. }
  destruct (decide (val s p = -1)) as [Hmine|Hmine].
  { eexists. split; [done|]. split; [done| | |].
    - intros q n Hq Hn Hv. apply Honly in Hn as ->; [lia|done].
    - change (vis (mark s p 1) p ≠ 0). rewrite mark_vis by done. lia.
    - intros q Hq Hn. apply Honly in Hn as ->; [|done]. by apply reach_here. }
  destruct (decide (val s p = 0)) as [Hzero|Hzero].
  2:{ eexists. split; [done|]. split; [done| | |].
      - intros q n Hq Hn Hv. apply Honly in Hn as ->; [lia|done].
      - rewrite mark_vis by done. lia.
      - intros q Hq Hn. apply Honly in Hn as ->; [|done]. by apply reach_here. }
  set (s1 := mark s p 1) in *.
  pose proof (mark_buried_count s p Hwf Hp 1 H0 ltac:(done)) as Hcount.
  fold s1 in Hcount.
  destruct (for_each_inv (λ q, dig fuel q.1 q.2)
              (λ d t, grows s1 t ∧ closed_in s1 t ∧
                      (∀ n, n ∈ d → in_bounds s n ∧ vis t n ≠ 0) ∧
                      ∀ q, in_bounds s q → newly s1 t q → reach s p q)
              (__surrounds s p.1 p.2) [] s1) as (s' & Hrun & Hg & Hc & Hd & Hr).
  { split; [apply grows_refl, (grows_wf _ _ Hg1)|].
    split; [intros q n _ [? ?]; lia|].
    split; [by intros n ?%elem_of_nil|]. intros q _ [? ?]. lia. }
  { intros d x t Hx (Hg & Hc & Hd & Hr).
    pose proof (grows_trans _ _ _ Hg1 Hg) as Hst.
    pose proof (surrounds_in_bounds _ _ _ _ Hx) as Hxb.
    destruct (IH t x) as (t' & Hrun & [Hg' Hc' Hh' Hr']).
    { apply (grows_wf _ _ Hg). }
    { by apply (grows_in_bounds _ _ _ Hst). }
    { pose proof (grows_count _ _ Hg). lia. }
    exists t'. split; [done|].
    pose proof (grows_trans _ _ _ Hg Hg') as Hg''.
    split; [done|]. split; [|split].
    - intros q n Hq Hn Hv Hnb.
      pose proof (proj2 (grows_in_bounds _ _ q Hg1) Hq) as Hq1.
      pose proof (proj2 (grows_in_bounds _ _ q Hst) Hq) as Hqt.
      destruct (grows_newly_split _ _ _ _ Hg Hg' Hq Hn) as [Hn1|[_ Hn2]].
      + eapply grows_not_buried; [exact Hg'| |by eapply Hc].
        apply (grows_in_bounds _ _ _ Hg).
        by eapply surrounds_in_bounds.
      + eapply Hc'; [| exact Hn2 | |].
        * by apply (grows_in_bounds _ _ _ Hg).
        * by rewrite (grows_val _ _ _ Hg).
        * by rewrite (grows_surrounds _ _ _ _ Hg).
    - intros n [Hn| ->%list_elem_of_singleton]%elem_of_app; [|done].
      destruct (Hd n Hn) as [Hnb Hnv]. split; [done|].
      eapply grows_not_buried; [exact Hg'| |done].
      by apply (grows_in_bounds _ _ _ Hst).
    - intros q Hq Hn.
      pose proof (proj2 (grows_in_bounds _ _ q Hg1) Hq) as Hq1.
      destruct (grows_newly_split _ _ _ _ Hg Hg' Hq1 Hn) as [Hn1|[_ Hn2]];
        [by apply Hr|].
      eapply reach_next; eauto. eapply reach_grows; [exact Hst|].
      apply Hr'; [|done]. by apply (grows_in_bounds _ _ _ Hst). }
  exists s'. split; [done|].
  pose proof (grows_trans _ _ _ Hg1 Hg) as Hst.
  split; [done| | |].
  - intros q n Hq [Hq0 Hq1] Hv Hn.
    destruct (decide (q = p)) as [->|Hne]; [by apply Hd|].
    apply (Hc q n).
    + by apply (grows_in_bounds _ _ _ Hg1).
    + split; [|done]. unfold s1. by rewrite mark_vis_ne.
    + by rewrite (grows_val _ _ _ Hg1).
    + by rewrite (grows_surrounds _ _ _ _ Hg1).
  - eapply grows_not_buried; [exact Hg|by apply (grows_in_bounds _ _ _ Hg1)|].
    unfold s1. rewrite mark_vis by done. lia.
  - intros q Hq [Hq0 Hq1].
    destruct (decide (q = p)) as [->|Hne]; [by apply reach_here|].
    apply Hr; [done|]. split; [|done]. unfold s1. by rewrite mark_vis_ne.
Qed.

Lemma reach_buried s p q : reach s p q → in_bounds s p ∧ vis s p = 0.
Proof. by destruct 1. Qed.

Lemma reach_target s p q : reach s p q → in_bounds s q ∧ vis s q = 0.
Proof. induction 1; auto. Qed.

(** Every cell the flood runs over has been dug. *)
Lemma dig_post_complete s p s' q :
  dig_post s p s' → reach s p q → newly s s' q.
Proof.
  intros [Hg Hc Hh _] Hr.
  assert (newly s s' p) as Hp.
  { destruct (reach_buried _ _ _ Hr) as [Hb H0].
    destruct (grows_mono _ _ Hg p Hb) as [E|?]; [|done].
    rewrite E in Hh. done. }
  clear Hh. induction Hr as [p Hb H0|p n q Hb H0 Hv Hn Hr IH]; [done|].
  apply IH. destruct (reach_buried _ _ _ Hr) as [Hnb Hn0].
  destruct (grows_mono _ _ Hg n Hnb) as [E|?]; [|done].
  exfalso. apply (Hc p n Hb Hp Hv Hn). by rewrite E.
Qed.

(** ** Neighbours and the zero region *)

Lemma sur_locs_eq r c :
  sur_locs r c =
    [(r - 1, c - 1); (r - 1, c); (r - 1, c + 1); (r, c - 1); (r, c + 1);
     (r + 1, c - 1); (r + 1, c); (r + 1, c + 1)].
Proof. reflexivity. Qed.

Lemma elem_of_sur_locs p n : n ∈ sur_locs p.1 p.2 ↔ adjacent p n.
Proof.
  rewrite sur_locs_eq. destruct p as [r c], n as [r' c']. unfold adjacent.
  simpl. rewrite !elem_of_cons, elem_of_nil. split.
  - intros H. repeat destruct H as [H|H]; try done;
      injection H as -> ->; (split; [intros [=]; lia | lia]).
  - intros (Hne & Hr & Hc).
    assert (r' = r - 1 ∨ r' = r ∨ r' = r + 1) as Hr' by lia.
    assert (c' = c - 1 ∨ c' = c ∨ c' = c + 1) as Hc' by lia.
    destruct Hr' as [->|[->| ->]], Hc' as [->|[->| ->]]; try done; tauto.
Qed.

Lemma NoDup_sur_locs r c : NoDup (sur_locs r c).
Proof.
  rewrite sur_locs_eq.
  repeat (apply NoDup_cons; split;
          [rewrite ?elem_of_cons, elem_of_nil; intros H;
           repeat destruct H as [H|H]; try done; injection H; lia|]).
  apply NoDup_nil_2.
Qed.

Lemma elem_of_surrounds s p n :
  n ∈ __surrounds s p.1 p.2 ↔ in_bounds s n ∧ adjacent p n.
Proof.
  unfold __surrounds. rewrite list_elem_of_filter, elem_of_sur_locs. done.
Qed.

Lemma NoDup_surrounds s r c : NoDup (__surrounds s r c).
Proof. apply NoDup_filter, NoDup_sur_locs. Qed.

Lemma length_surrounds s r c : (length (__surrounds s r c) ≤ 8)%nat.
Proof.
  unfold __surrounds. etrans; [apply length_filter|].
  by rewrite sur_locs_eq.
Qed.

Lemma adjacent_sym p n : adjacent p n → adjacent n p.
Proof. unfold adjacent. intros (? & ? & ?). split; [congruence|lia]. Qed.

(** No mine touches a zero cell. *)
Lemma zero_no_mine s p n :
  adjacency_ok s → in_bounds s p → val s p = 0 →
  n ∈ __surrounds s p.1 p.2 → val s n ≠ -1.
Proof.
  intros Hok Hp H0 Hn Hmine.
  specialize (Hok p Hp). rewrite H0 in Hok. unfold mines_around in Hok.
  assert (n ∈ filter (λ n, val s n = -1) (__surrounds s p.1 p.2)) as Hin.
  { by apply list_elem_of_filter. }
  destruct (filter _ _); [by apply elem_of_nil in Hin|]. simpl in Hok. lia.
Qed.

Lemma reach_no_mine s p q :
  adjacency_ok s → reach s p q → val s p ≠ -1 → val s q ≠ -1.
Proof.
  intros Hok. induction 1 as [|p n q Hp H0 Hv Hn Hr IH]; [done|].
  intros _. apply IH. by eapply zero_no_mine.
Qed.

Lemma reach_revealed s p q :
  reach s p q → ∀ o, zero_region s o p → revealed s o q.
Proof.
  induction 1 as [p Hp H0|p n q Hp H0 Hv Hn Hr IH]; intros o Ho.
  - exists p. auto.
  - apply elem_of_surrounds in Hn as [Hnb Hadj].
    destruct (decide (val s n = 0)) as [Hz|Hz].
    + apply IH. by eapply zero_region_next.
    + inversion Hr; subst; [|done].
      exists p. auto.
Qed.

Lemma reach_extend s p z q :
  reach s p z → val s z = 0 → in_bounds s q → adjacent z q → vis s q = 0 →
  reach s p q.
Proof.
  induction 1 as [p Hp H0|p n z Hp H0 Hv Hn Hr IH]; intros Hz Hq Hadj Hq0.
  - eapply reach_next; eauto; [|by apply reach_here].
    by apply elem_of_surrounds.
  - eapply reach_next; eauto.
Qed.

Lemma zero_region_reach s p z :
  (∀ x, revealed s p x → vis s x = 0) → zero_region s p z →
  reach s p z ∧ val s z = 0.
Proof.
  intros Hall. induction 1 as [Hp Hv|z n Hz IH Hn Hadj Hv].
  - split; [|done]. apply reach_here; [done|].
    apply Hall. exists p. split; [by apply zero_region_here|by left].
  - split; [|done]. destruct IH as [IH Hvz].
    apply (reach_extend _ _ z); auto.
    apply Hall. exists n. split; [|by left].
    by eapply zero_region_next.
Qed.

Lemma revealed_reach s p q :
  (∀ x, revealed s p x → vis s x = 0) → revealed s p q → reach s p q.
Proof.
  intros Hall (z & Hz & Hq).
  destruct (zero_region_reach _ _ _ Hall Hz) as [Hrz Hvz].
  destruct Hq as [->|[Hqb Hadj]]; [done|].
  apply (reach_extend _ _ z); auto.
  apply Hall. exists z. auto.
Qed.

(** ** Flag and the win query *)

Lemma game_won_run s :
  game_won s = (Ok (all_safe_dug s), with_game_won (Some (all_safe_dug s)) s).
Proof.
  unfold game_won, mbind, M_bind, game_lost, gets, modify, read_game_won.
  unfold all_safe_dug. cbn [negb fst snd _game_lost with_game_won].
  destruct (_game_lost s) eqn:Hl; cbn [negb].
  - rewrite bool_decide_eq_false_2; [done|]. by intros [? _].
  - cbn [field_map height width mine_amnt]. case_decide as Hc.
    + by rewrite bool_decide_eq_true_2.
    + rewrite bool_decide_eq_false_2; [done|]. by intros [_ ?].
Qed.

(** Writing [v] over [v0] where neither is [k] keeps the number of [k]s. *)
Lemma setitem_count a r c v0 v a' k :
  getitem a r c = Some v0 → setitem a r c v = Some a' → v0 ≠ k → v ≠ k →
  count_eq a' k = count_eq a k.
Proof.
  unfold getitem, setitem, count_eq. intros Hg Hs H0 Hv.
  destruct (offset a r c) as [i|]; simplify_eq/=. rewrite Hg in Hs.
  simplify_eq/=.
  pose proof (length_filter_insert (λ x, x = k) _ _ _ v Hg) as E.
  rewrite !decide_False in E by done. f_equal. lia.
Qed.

(** [flag] never touches a dug cell: the number of dug cells is kept. *)
Lemma flag_keeps_dug r c : steps (keeps (λ s, count_eq (field_map s) 1)) (flag r c).
Proof.
  intros s. unfold keeps, flag, mbind, M_bind, get_field_map, set_field_map.
  destruct (getitem (field_map s) r c) as [v|] eqn:Hg; [|done].
  case_decide as Hv.
  - destruct (setitem (field_map s) r c 2) as [a|] eqn:Hs; [|done]. simpl.
    eapply setitem_count; eauto; lia.
  - rewrite Hg. case_decide as Hv'; [|done].
    destruct (setitem (field_map s) r c 0) as [a|] eqn:Hs; [|done]. simpl.
    eapply setitem_count; eauto; lia.
Qed.

Lemma flag_keeps_game_won r c s : (game_won (flag r c s).2).1 = (game_won s).1.
Proof.
  rewrite !game_won_run. unfold all_safe_dug. simpl.
  pose proof (flag_keeps r c s) as Hk. pose proof (flag_keeps_dug r c s) as Hd.
  unfold keeps in *.
  pose proof (f_equal fst Hk) as Hg. pose proof (f_equal snd Hk) as Hl.
  simpl in Hg, Hl. apply geometry_eq in Hg as (-> & -> & -> & _).
  by rewrite Hl, Hd.
Qed.

(** ** Sequences of calls *)

(** [__str__] reads the object and leaves it as it is. *)
Lemma str_keeps_self : steps (keeps (λ s, s)) __str__.
Proof.
  unfold __str__.
  apply steps_bind; [apply _|apply steps_gets, _|]. intros w.
  apply steps_bind; [apply _|apply steps_gets, _|]. intros h.
  apply steps_bind; [apply _| |intros; apply steps_ret, _].
  apply steps_for_fold; [apply _|]. intros string row.
  apply steps_bind; [apply _| |intros; apply steps_ret, _].
  apply steps_for_fold; [apply _|]. intros row_str col.
  apply steps_bind; [apply _|apply steps_get_field_map, _|]. intros v.
  case_decide; [apply steps_ret, _|].
  apply steps_bind; [apply _|apply steps_get_field_map, _|]. intros v'.
  case_decide; [apply steps_ret, _|].
  apply steps_bind; [apply _|apply steps_get_field_map, _|]. intros v''.
  case_decide; [|apply steps_ret, _].
  apply steps_bind; [apply _|apply steps_get_field, _|]. intros f.
  case_decide; apply steps_ret, _.
Qed.

Lemma exec_stays_lost o s : stays_lost s (exec o s).
Proof.
  destruct o as [fuel r c|r c| | |]; simpl.
  - apply dig_stays_lost.
  - intros Hl. pose proof (f_equal snd (flag_keeps r c s)) as Hk.
    simpl in Hk. congruence.
  - by rewrite (str_keeps_self s).
  - rewrite game_won_run. by intros ?.
  - by intros ?.
Qed.

Lemma exec_all_stays_lost os s : stays_lost s (exec_all os s).
Proof.
  revert s. induction os as [|o os IH]; intros s; simpl; [by intros ?|].
  etrans; [apply exec_stays_lost|apply IH].
Qed.

(** ** The cached [_game_won] is read by nothing else *)

Section Cache.

Variable x : option bool.

Lemma ignores_ret {A} (a : A) : ignores_cache x (mret a).
Proof. by intros s. Qed.

Lemma ignores_out_of_fuel {A} : ignores_cache x (@out_of_fuel A).
Proof. by intros s. Qed.

Lemma ignores_bind {A B} (m : M A) (f : A → M B) :
  ignores_cache x m → (∀ a, ignores_cache x (f a)) → ignores_cache x (m ≫= f).
Proof.
  intros Hm Hf s. unfold mbind, M_bind. rewrite Hm.
  destruct (m s) as [[a| |] s1]; simpl; [apply Hf|done..].
Qed.

Lemma ignores_for_each {A} (l : list A) (body : A → M unit) :
  (∀ a, ignores_cache x (body a)) → ignores_cache x (for_each l body).
Proof.
  intros Hb. induction l as [|a l IH]; simpl; [apply ignores_ret|].
  apply ignores_bind; [apply Hb|by intros _].
Qed.

Lemma ignores_for_fold {A B} (l : list A) (acc : B) (body : B → A → M B) :
  (∀ b a, ignores_cache x (body b a)) → ignores_cache x (for_fold l acc body).
Proof.
  intros Hb. revert acc. induction l as [|a l IH]; intros acc; simpl.
  - apply ignores_ret.
  - apply ignores_bind; [apply Hb|]. intros acc'. apply IH.
Qed.

Lemma ignores_gets {A} (f : Minefield → A) :
  (∀ s, f (with_game_won x s) = f s) → ignores_cache x (gets f).
Proof. intros Hf s. unfold gets. simpl. by rewrite Hf. Qed.

Lemma ignores_get_field r c : ignores_cache x (get_field r c).
Proof. intros s. unfold get_field. simpl. by destruct getitem. Qed.

Lemma ignores_get_field_map r c : ignores_cache x (get_field_map r c).
Proof. intros s. unfold get_field_map. simpl. by destruct getitem. Qed.

Lemma ignores_set_field_map r c v : ignores_cache x (set_field_map r c v).
Proof. intros s. unfold set_field_map. simpl. by destruct setitem. Qed.

Lemma ignores_surrounds r c :
  ignores_cache x (gets (λ self, __surrounds self r c)).
Proof. by intros s. Qed.

Lemma dig_ignores_cache fuel r c : ignores_cache x (dig fuel r c).
Proof.
  revert r c. induction fuel as [|fuel IH]; intros r c; simpl.
  - apply ignores_out_of_fuel.
  - apply ignores_bind; [apply ignores_get_field_map|]. intros v.
    case_decide; [|apply ignores_ret].
    apply ignores_bind; [apply ignores_set_field_map|]. intros _.
    apply ignores_bind; [apply ignores_get_field|]. intros f.
    case_decide; [by intros s|].
    case_decide; [|apply ignores_ret].
    apply ignores_bind; [apply ignores_surrounds|]. intros sur.
    apply ignores_for_each. intros; apply IH.
Qed.

Lemma flag_ignores_cache r c : ignores_cache x (flag r c).
Proof.
  unfold flag. apply ignores_bind; [apply ignores_get_field_map|]. intros v.
  case_decide; [apply ignores_set_field_map|].
  apply ignores_bind; [apply ignores_get_field_map|]. intros v'.
  case_decide; [apply ignores_set_field_map|apply ignores_ret].
Qed.

Lemma str_ignores_cache : ignores_cache x __str__.
Proof.
  unfold __str__. apply ignores_bind; [by apply ignores_gets|]. intros w.
  apply ignores_bind; [by apply ignores_gets|]. intros h.
  apply ignores_bind; [|intros; apply ignores_ret].
  apply ignores_for_fold. intros string row.
  apply ignores_bind; [|intros; apply ignores_ret].
  apply ignores_for_fold. intros row_str col.
  apply ignores_bind; [apply ignores_get_field_map|]. intros v.
  case_decide; [apply ignores_ret|].
  apply ignores_bind; [apply ignores_get_field_map|]. intros v'.
  case_decide; [apply ignores_ret|].
  apply ignores_bind; [apply ignores_get_field_map|]. intros v''.
  case_decide; [|apply ignores_ret].
  apply ignores_bind; [apply ignores_get_field|]. intros f.
  case_decide; apply ignores_ret.
Qed.

End Cache.

(** ** Coordinates numpy rejects *)

Lemma index_error_cases r c :
  index_error r c = IndexError ∨ index_error r c = OverflowError.
Proof.
  unfold index_error, convert_error. repeat case_decide; simpl; auto.
Qed.

Lemma index_error_overflow r c :
  index_error r c = OverflowError ↔
  (2 ^ 63 ≤ r ∧ r < 2 ^ 64) ∨
  ((- 2 ^ 63 ≤ r ∧ r < 2 ^ 63) ∧ (2 ^ 63 ≤ c ∧ c < 2 ^ 64)).
Proof.
  unfold index_error, convert_error.
  repeat case_decide; simpl; split; try done; try lia; intros _; lia.
Qed.

Lemma index_error_fits r c :
  (- 2 ^ 63 ≤ r ∧ r < 2 ^ 63) → (- 2 ^ 63 ≤ c ∧ c < 2 ^ 63) →
  index_error r c = IndexError.
Proof.
  intros Hr Hc. unfold index_error, convert_error.
  by rewrite !decide_True by done.
Qed.

Lemma offset_out a h w r c :
  shape_ok a h w → r < - h ∨ h ≤ r ∨ c < - w ∨ w ≤ c → offset a r c = None.
Proof.
  intros [<- <- Hh Hw _] Hout. unfold offset.
  destruct (norm_index r (nrows a)) as [r'|] eqn:Hr; [|done]. simpl.
  destruct (norm_index c (ncols a)) as [c'|] eqn:Hc; [|done]. exfalso.
  unfold norm_index in *.
  repeat match goal with
         | H : context [ (?a <=? ?b) ] |- _ => destruct (Z.leb_spec a b)
         | H : context [ (?a <? ?b) ] |- _ => destruct (Z.ltb_spec a b)
         end; simpl in *; try done; lia.
Qed.

(** ** The trace of a flood fill *)

Lemma forget_bind {A B} (m : M A) (f : A → M B) (g : A → M unit) s :
  (∀ a t, forget (f a t) = g a t) → forget ((m ≫= f) s) = (m ≫= g) s.
Proof.
  intros H. unfold mbind, M_bind. destruct (m s) as [[a| |] t]; [apply H|done..].
Qed.

Lemma forget_for_each {A B} (l : list A) (body : A → M (list B))
    (body' : A → M unit) s :
  (∀ a t, forget (body a t) = body' a t) →
  forget (for_each_log l body s) = for_each l body' s.
Proof.
  intros H. revert s. induction l as [|a l IH]; intros s; simpl; [done|].
  unfold mbind at 1 3, M_bind at 1 3. rewrite <- H.
  destruct (body a s) as [[v| |] t]; [|done..]. simpl.
  rewrite <- IH. unfold mbind, M_bind.
  by destruct (for_each_log l body t) as [[vs| |] u].
Qed.

(** [dig_log] is [dig] with a trace. *)
Lemma dig_log_forget fuel r c s : forget (dig_log fuel r c s) = dig fuel r c s.
Proof.
  revert r c s. induction fuel as [|fuel IH]; intros r c s; simpl; [done|].
  apply forget_bind. intros v t. case_decide; [|done].
  apply forget_bind. intros _ t1. apply forget_bind. intros f t2.
  case_decide; [done|]. case_decide; [|done].
  apply forget_bind. intros sur t3.
  rewrite <- (forget_for_each sur (λ p, dig_log fuel p.1 p.2)) by (intros; apply IH).
  unfold mbind, M_bind. by destruct (for_each_log _ _ _) as [[vs| |] u].
Qed.

Lemma dig_log_ok fuel r c s s' :
  dig fuel r c s = (Ok tt, s') → ∃ l, dig_log fuel r c s = (Ok l, s').
Proof.
  rewrite <- dig_log_forget. unfold forget.
  destruct (dig_log fuel r c s) as [[l| |] t]; simpl; intros [=]; subst. eauto.
Qed.

Lemma for_each_log_inv {A B} (body : A → M (list B))
    (Inv : list B → Minefield → Prop) (todo : list A) :
  ∀ acc s,
    Inv acc s →
    (∀ acc x t, x ∈ todo → Inv acc t →
       ∃ v t', body x t = (Ok v, t') ∧ Inv (acc ++ v) t') →
    ∃ vs s', for_each_log todo body s = (Ok vs, s') ∧ Inv (acc ++ vs) s'.
Proof.
  induction todo as [|x todo IH]; intros acc s HI Hbody; simpl.
  - exists [], s. by rewrite app_nil_r.
  - destruct (Hbody acc x s) as (v & t & Hx & HI'); [left|done|].
    unfold mbind at 1, M_bind at 1. rewrite Hx.
    destruct (IH (acc ++ v) t HI') as (vs & s' & Hs' & HI'').
    { intros d y u Hy. apply Hbody. by right. }
    unfold mbind, M_bind. rewrite Hs'. exists (v ++ vs), s'.
    split; [done|]. by rewrite app_assoc.
Qed.

Lemma dig_log_spec fuel s p :
  wf s → in_bounds s p → (buried_count s < fuel)%nat →
  ∃ l s', dig_log fuel p.1 p.2 s = (Ok l, s') ∧
          dig fuel p.1 p.2 s = (Ok tt, s') ∧ dig_post s p s' ∧ log_post s s' l.
Proof.
  revert s p. induction fuel as [|fuel IH]; intros s p Hwf Hp Hfuel; [lia|].
  destruct (dig_spec (S fuel) s p Hwf Hp Hfuel) as (s' & Hdig & Hpost).
  destruct (dig_log_ok _ _ _ _ _ Hdig) as (l & Hlog).
  exists l, s'. do 3 (split; [done|]).
  rewrite dig_inb in Hdig by done. revert Hlog. simpl.
  unfold mbind at 1, M_bind at 1. rewrite get_field_map_inb by done.
  destruct (decide (vis s p = 0)) as [H0|H0].
  2:{ intros [= <- <-]. simplify_eq. split; [apply NoDup_nil_2| |simpl; lia].
      intros q. rewrite elem_of_nil. split; [done|]. intros [_ [? ?]]. lia. }
  unfold mbind at 1, M_bind at 1. rewrite set_field_map_inb by done.
  unfold mbind at 1, M_bind at 1.
  assert (get_field p.1 p.2 (mark s p 1) = (Ok (val s p), mark s p 1)) as ->.
  { unfold get_field, mark, val; simpl.
    by rewrite (getitem_inb _ _ _ (wf_field _ Hwf) _ Hp). }
  pose proof (mark_buried_count s p Hwf Hp 1 H0 ltac:(done)) as Hcount.
  assert (∀ q, in_bounds s q → newly s (mark s p 1) q → q = p) as Honly.
  { intros q Hq [Hq0 Hq1]. destruct (decide (q = p)) as [|Hne]; [done|].
    rewrite mark_vis_ne in Hq1 by done. lia. }
  assert (newly s (mark s p 1) p) as Hnew.
  { split; [done|]. by apply mark_vis. }
  assert ((p.1, p.2) = p) as Epair by (by destruct p).
  destruct (decide (val s p = -1)) as [Hmine|Hmine].
  { intros [= <- <-]. simplify_eq. rewrite Epair.
    split; [apply NoDup_singleton| |].
    2:{ unfold buried_count in *. cbn [field_map with_game_lost length]. lia. }
    intros q. rewrite list_elem_of_singleton. split; [by intros ->|].
    intros [Hq Hn]. by apply Honly. }
  destruct (decide (val s p = 0)) as [Hzero|Hzero].
  2:{ intros [= <- <-]. simplify_eq. rewrite Epair.
      split; [apply NoDup_singleton| |cbn [length]; lia].
      intros q. rewrite list_elem_of_singleton. split; [by intros ->|].
      intros [Hq Hn]. by apply Honly. }
  pose proof (grows_mark s p Hwf Hp H0) as Hg1.
  rewrite decide_False in Hg1 by done.
  set (s1 := mark s p 1) in *.
  unfold mbind at 1, M_bind at 1. simpl.
  destruct (for_each_log_inv (λ q, dig_log fuel q.1 q.2)
              (λ acc t, grows s1 t ∧ log_post s1 t acc)
              (__surrounds s p.1 p.2) [] s1) as (vs & t & Hrun & Hg & Hl).
  { split; [apply grows_refl, (grows_wf _ _ Hg1)|].
    split; [apply NoDup_nil_2| |simpl; lia].
    intros q. rewrite elem_of_nil. split; [done|]. intros [_ [? ?]]. lia. }
  { intros acc x u Hx (Hg & [Hnd Hel Hc]).
    pose proof (grows_trans _ _ _ Hg1 Hg) as Hst.
    pose proof (surrounds_in_bounds _ _ _ _ Hx) as Hxb.
    destruct (IH u x) as (v & u' & Hrun & _ & [Hg' _ _ _] & [Hnd' Hel' Hc']).
    { apply (grows_wf _ _ Hg). }
    { by apply (grows_in_bounds _ _ _ Hst). }
    { pose proof (grows_count _ _ Hg). lia. }
    exists v, u'. split; [done|]. split; [by eapply grows_trans|].
    assert (∀ q, in_bounds s1 q ↔ in_bounds u q) as Hb.
    { intros q. symmetry. apply (grows_in_bounds _ _ _ Hg). }
    split.
    - apply NoDup_app. split; [done|]. split; [|done].
      intros q [_ [_ Hq1]]%Hel [_ [Hq0 _]]%Hel'. lia.
    - intros q. rewrite elem_of_app, Hel, Hel', <- Hb. unfold newly. split.
      + intros [[Hq [Hq0 Hq1]]|[Hq [Hq0 Hq1]]]; (split; [done|]).
        * destruct (grows_mono _ _ Hg' q (proj1 (Hb q) Hq)) as [E|[? ?]]; lia.
        * destruct (grows_mono _ _ Hg q Hq) as [E|[? ?]]; lia.
      + intros [Hq [Hq0 Hq1]].
        destruct (grows_mono _ _ Hg q Hq) as [E|[? ?]]; [right|left]; (split; [done|lia]).
    - rewrite length_app. lia. }
  simpl in Hl. destruct Hl as [Hnd Hel Hc].
  change (__surrounds s1 p.1 p.2) with (__surrounds s p.1 p.2).
  unfold mbind, M_bind. rewrite Hrun. intros [= <- <-]. rewrite Epair.
  assert (∀ q, in_bounds s1 q ↔ in_bounds s q) as Hb.
  { intros q. apply (grows_in_bounds _ _ _ Hg1). }
  split.
  - apply NoDup_cons. split; [|done].
    intros [_ [Hp0 _]]%Hel. unfold s1 in Hp0. rewrite mark_vis in Hp0 by done. lia.
  - intros q. rewrite elem_of_cons, Hel, Hb. unfold newly. split.
    + intros [->|[Hq [Hq0 Hq1]]].
      * split; [done|]. split; [done|].
        destruct (grows_mono _ _ Hg p (proj2 (Hb p) Hp)) as [E|[? ?]]; [|done].
        rewrite E. by apply mark_vis.
      * split; [done|]. split; [|done].
        destruct (grows_mono _ _ Hg1 q Hq) as [E|[? ?]]; lia.
    + intros [Hq [Hq0 Hq1]]. destruct (decide (q = p)) as [|Hne]; [by left|right].
      split; [done|]. split; [|done]. unfold s1. by rewrite mark_vis_ne.
  - simpl. lia.
Qed.

(** ** Row-major coordinates *)

Lemma unravel_inb h w i :
  0 ≤ h → 0 ≤ w → (i < Z.to_nat (h * w))%nat →
  inb h w (unravel w i) ∧ idx w (unravel w i) = i.
Proof.
  intros Hh Hw Hi. assert (0 < w) as Hw' by nia.
  unfold inb, unravel, idx; simpl.
  pose proof (Z.mod_pos_bound (Z.of_nat i) w Hw').
  pose proof (Z.div_mod (Z.of_nat i) w ltac:(lia)) as Hdm.
  assert (0 ≤ Z.of_nat i `div` w) by (apply Z.div_pos; lia).
  assert (Z.of_nat i `div` w < h).
  { apply Z.div_lt_upper_bound; [done|]. nia. }
  split; [lia|].
  replace (Z.of_nat i `div` w * w + Z.of_nat i `mod` w) with (Z.of_nat i) by lia.
  apply Nat2Z.id.
Qed.

Lemma unravel_idx h w p : inb h w p → unravel w (idx w p) = p.
Proof.
  intros [[] []]. unfold unravel, idx. destruct p as [r c]; simpl in *.
  rewrite Z2Nat.id by nia. f_equal.
  - symmetry. apply (Z.div_unique_pos _ _ _ c); lia.
  - symmetry. apply (Z.mod_unique_pos _ _ r); lia.
Qed.

Section Nonzero.

Context (a : ndarray) (h w : Z) (Ha : shape_ok a h w).

Lemma elem_of_nonzero p : p ∈ nonzero a ↔ inb h w p ∧ cell a p ≠ 0.
Proof.
  destruct Ha as [Hr Hc Hh Hw Hl]. unfold nonzero. rewrite Hc, Hl.
  rewrite list_elem_of_fmap. fold (unravel w). split.
  - intros (i & -> & [Hi Hlt%elem_of_seq]%list_elem_of_filter).
    destruct (unravel_inb h w i Hh Hw) as [Hb Hidx]; [lia|].
    change (Z.of_nat i `div` w, Z.of_nat i `mod` w) with (unravel w i).
    split; [done|]. unfold cell. rewrite Hc, Hidx.
    destruct (data a !! i) as [v|] eqn:Ei; simpl; [congruence|].
    apply lookup_ge_None in Ei. lia.
  - intros [Hb Hv]. exists (idx w p).
    split; [symmetry; exact (unravel_idx h w p Hb)|].
    apply list_elem_of_filter. pose proof (idx_lt _ _ _ Hb). split.
    + unfold cell in Hv. rewrite Hc in Hv. intros E. by rewrite E in Hv.
    + apply elem_of_seq. lia.
Qed.

Lemma NoDup_nonzero : NoDup (nonzero a).
Proof.
  destruct Ha as [Hr Hc Hh Hw Hl]. unfold nonzero. rewrite Hc, Hl.
  fold (unravel w). apply NoDup_fmap_2_strong; [|apply NoDup_filter, NoDup_seq].
  intros i j [_ Hi%elem_of_seq]%list_elem_of_filter
    [_ Hj%elem_of_seq]%list_elem_of_filter E.
  destruct (unravel_inb h w i Hh Hw) as [_ <-]; [lia|].
  destruct (unravel_inb h w j Hh Hw) as [_ <-]; [lia|]. by rewrite E.
Qed.

(** A fact about every cell is a fact about every entry of the buffer. *)
Lemma Forall_cells (P : Z → Prop) :
  (∀ p, inb h w p → P (cell a p)) → Forall P (data a).
Proof.
  destruct Ha as [Hr Hc Hh Hw Hl]. intros H. apply Forall_lookup. intros i x Hi.
  pose proof (lookup_lt_Some _ _ _ Hi) as Hlt. rewrite Hl in Hlt.
  destruct (unravel_inb h w i Hh Hw Hlt) as [Hb Hidx].
  specialize (H _ Hb). unfold cell in H. by rewrite Hc, Hidx, Hi in H.
Qed.

End Nonzero.

Lemma Forall2_cells (P : Z → Z → Prop) a b h w :
  shape_ok a h w → shape_ok b h w →
  (∀ p, inb h w p → P (cell a p) (cell b p)) → Forall2 P (data a) (data b).
Proof.
  intros [Hr Hc Hh Hw Hl] [Hr' Hc' _ _ Hl'] H.
  apply Forall2_same_length_lookup. split; [congruence|]. intros i x y Hx Hy.
  pose proof (lookup_lt_Some _ _ _ Hx) as Hlt. rewrite Hl in Hlt.
  destruct (unravel_inb h w i Hh Hw Hlt) as [Hb Hidx].
  specialize (H _ Hb). unfold cell in H.
  by rewrite Hc, Hc', Hidx, Hx, Hy in H.
Qed.

Lemma length_filter_Forall2 (P : Z → Prop) `{!∀ x, Decision (P x)} l k :
  Forall2 (λ x y, P x ↔ P y) l k → length (filter P l) = length (filter P k).
Proof.
  induction 1 as [|x y l k Hxy _ IH]; [done|].
  rewrite !filter_cons. repeat case_decide; simpl; try lia; tauto.
Qed.

Lemma filter_ext_elem {A} (P Q : A → Prop) `{!∀ x, Decision (P x)}
    `{!∀ x, Decision (Q x)} (l : list A) :
  (∀ x, x ∈ l → P x ↔ Q x) → filter P l = filter Q l.
Proof.
  induction l as [|x l IH]; intros Hext; [done|]. rewrite !filter_cons.
  rewrite IH by (intros y Hy; apply Hext; by right).
  pose proof (Hext x ltac:(left)). repeat case_decide; try done; tauto.
Qed.

(** ** Counting the mines that touch a cell *)

Lemma occurrences_app q l k :
  occurrences q (l ++ k) = occurrences q l + occurrences q k.
Proof. unfold occurrences. rewrite filter_app, length_app. lia. Qed.

Lemma occurrences_NoDup q l :
  NoDup l → occurrences q l = if decide (q ∈ l) then 1 else 0.
Proof.
  unfold occurrences. induction 1 as [|x l Hx Hnd IH]; [done|].
  rewrite filter_cons. destruct (decide (x = q)) as [->|Hne].
  - rewrite decide_True by left. simpl.
    rewrite decide_False in IH by done. lia.
  - rewrite IH. destruct (decide (q ∈ l)) as [Hq|Hq].
    + rewrite decide_True; [done|by right].
    + rewrite decide_False; [done|]. rewrite elem_of_cons. by intros [->|?].
Qed.

Lemma occurrences_bind q (l : list (Z * Z)) (f : Z * Z → list (Z * Z)) :
  (∀ m, NoDup (f m)) →
  occurrences q (l ≫= f) = Z.of_nat (length (filter (λ m, q ∈ f m) l)).
Proof.
  intros Hf. induction l as [|m l IH]; [done|].
  rewrite bind_cons, occurrences_app, IH, occurrences_NoDup by done.
  rewrite filter_cons. case_decide; simpl; lia.
Qed.

(** The mines that touch [q], counted from the mines or from [q]. *)
Lemma occurrences_mines s q :
  shape_ok (field s) (height s) (width s) → in_bounds s q →
  (∀ p, in_bounds s p → val s p = -1 ∨ val s p = 0) →
  occurrences q (nonzero (field s) ≫= λ m, __surrounds s m.1 m.2)
  = mines_around s q.
Proof.
  intros Ha Hq Hplaced.
  rewrite occurrences_bind by (intros; apply NoDup_surrounds).
  unfold mines_around. f_equal. apply Permutation_length.
  apply NoDup_Permutation.
  - apply NoDup_filter. by eapply NoDup_nonzero.
  - apply NoDup_filter, NoDup_surrounds.
  - intros m. rewrite !list_elem_of_filter, !elem_of_surrounds.
    rewrite (elem_of_nonzero _ _ _ Ha). fold (in_bounds s m) (val s m). split.
    + intros [[_ Hadj] [Hm Hv]]. split; [|split; [done|by apply adjacent_sym]].
      destruct (Hplaced m Hm); [done|lia].
    + intros [Hv [Hm Hadj]]. split; [split; [done|by apply adjacent_sym]|].
      split; [done|lia].
Qed.

(** ** The adjacency pass *)

Lemma besides_field_eq s s' :
  besides_field s' = besides_field s →
  mine_amnt s' = mine_amnt s ∧ width s' = width s ∧ height s' = height s ∧
  field_map s' = field_map s ∧ _game_lost s' = _game_lost s ∧
  _game_won s' = _game_won s.
Proof. unfold besides_field. by intros [= -> -> -> -> -> ->]. Qed.

Lemma occurrences_nonneg q d : 0 ≤ occurrences q d.
Proof. unfold occurrences. lia. Qed.

Lemma bump_counted s d t p :
  counted s d t → in_bounds s p →
  ∃ t', bump p t = (Ok tt, t') ∧ counted s (d ++ [p]) t'.
Proof.
  intros [Hb Ha Hc] Hp. unfold bump, mbind, M_bind, get_field.
  rewrite (getitem_inb _ _ _ Ha _ Hp). fold (val t p).
  pose proof (Hc p Hp) as Hvp.
  assert (∀ q, occurrences q (d ++ [p])
               = occurrences q d + if decide (q = p) then 1 else 0) as Hocc.
  { intros q. rewrite occurrences_app. f_equal. unfold occurrences.
    rewrite filter_cons, filter_nil.
    destruct (decide (p = q)) as [->|Hne].
    - by rewrite decide_True.
    - rewrite decide_False; [done|congruence]. }
  destruct (decide (val t p ≠ -1)) as [Hv|Hv].
  - unfold set_field.
    destruct (setitem_inb _ _ _ Ha p (val t p + 1) Hp)
      as (a' & -> & Ha' & _ & Hhere & Helse).
    eexists. split; [done|]. split; [done|done|]. simpl. intros q Hq.
    rewrite Hocc. change (val (with_field a' t) q) with (cell a' q).
    destruct (decide (q = p)) as [->|Hne].
    + rewrite Hhere, Hvp.
      destruct (decide (val s p = -1)); [by rewrite Hvp in Hv|done].
    + rewrite Helse by done. fold (val t q). rewrite (Hc q Hq).
      destruct (decide (val s q = -1)); lia.
  - exists t. split; [done|]. split; [done|done|]. intros q Hq.
    rewrite Hocc, (Hc q Hq).
    destruct (decide (q = p)) as [->|Hne];
      [|destruct (decide (val s q = -1)); lia].
    destruct (decide (val s p = -1)) as [Hm|Hm]; [done|].
    pose proof (occurrences_nonneg p d). lia.
Qed.

Lemma locate_mines_counted s :
  placed s →
  ∃ s', __locate_mines s = (Ok tt, s') ∧
        counted s (nonzero (field s) ≫= λ m, __surrounds s m.1 m.2) s'.
Proof.
  intros [Ha Hcells]. unfold __locate_mines, mbind at 1, M_bind at 1, gets at 1.
  set (f := λ m : Z * Z, __surrounds s m.1 m.2).
  destruct (for_each_inv
    (λ m, sur ← gets (λ self, __surrounds self m.1 m.2); for_each sur bump)
    (λ ms t, counted s (ms ≫= f) t) (nonzero (field s)) [] s)
    as (s' & Hrun & Hs').
  { split; [done|done|]. intros q Hq. simpl.
    destruct (Hcells q Hq) as [E|E]; rewrite E; [done|].
    by rewrite decide_False. }
  { intros ms m t Hm Hc. unfold mbind, M_bind, gets.
    pose proof (counted_besides _ _ _ Hc) as Hb.
    apply besides_field_eq in Hb as (_ & Hw & Hh & _).
    assert (__surrounds t m.1 m.2 = f m) as ->.
    { unfold f, __surrounds. by rewrite Hw, Hh. }
    destruct (for_each_inv bump (λ d u, counted s ((ms ≫= f) ++ d) u)
                (f m) [] t) as (t' & Hrun & Ht').
    { by rewrite app_nil_r. }
    { intros d x u Hx Hu. rewrite app_assoc. apply bump_counted; [done|].
      by eapply surrounds_in_bounds. }
    exists t'. split; [done|].
    by rewrite bind_app, bind_singleton. }
  exists s'. split; [exact Hrun|done].
Qed.

Lemma mines_around_bounds s p : 0 ≤ mines_around s p ∧ mines_around s p ≤ 8.
Proof.
  unfold mines_around.
  pose proof (length_filter (λ n, val s n = -1) (__surrounds s p.1 p.2)).
  pose proof (length_surrounds s p.1 p.2). lia.
Qed.

(** The pass keeps the mines and gives every other cell its count. *)
Lemma counted_adjacency s s' :
  placed s →
  counted s (nonzero (field s) ≫= λ m, __surrounds s m.1 m.2) s' →
  ∀ p, in_bounds s p →
    (val s p = -1 → val s' p = -1) ∧
    (val s p ≠ -1 → val s' p ≠ -1 ∧ val s' p = mines_around s' p).
Proof.
  intros [Ha Hcells] [Hb Ha' Hc] p Hp.
  apply besides_field_eq in Hb as (_ & Hw & Hh & _).
  assert (∀ q, in_bounds s q → val s' q = -1 ↔ val s q = -1) as Hmines.
  { intros q Hq. rewrite (Hc q Hq).
    destruct (decide (val s q = -1)); [done|].
    pose proof (occurrences_nonneg q
      (nonzero (field s) ≫= λ m, __surrounds s m.1 m.2)). split; [lia|done]. }
  split; [by intros ?%Hmines|]. intros Hv. split; [by rewrite Hmines|].
  rewrite (Hc p Hp), decide_False by done.
  rewrite occurrences_mines by done. unfold mines_around.
  assert (__surrounds s' p.1 p.2 = __surrounds s p.1 p.2) as ->.
  { unfold __surrounds. by rewrite Hw, Hh. }
  do 2 f_equal. apply filter_ext_elem. intros n Hn. symmetry.
  apply Hmines. by eapply surrounds_in_bounds.
Qed.

(** ** Construction *)

Lemma length_filter_replicate (P : Z → Prop) `{!∀ x, Decision (P x)} n x :
  length (filter P (replicate n x)) = if decide (P x) then n else 0%nat.
Proof.
  induction n as [|n IH]; [by case_decide|].
  change (replicate (S n) x) with (x :: replicate n x).
  rewrite filter_cons. destruct (decide (P x)); simpl; by rewrite IH.
Qed.

Lemma length_filter_split l :
  Forall (λ v, v = -1 ∨ (0 ≤ v ∧ v ≤ 8)) l →
  length l = Nat.add (length (filter (λ v, v = -1) l))
                     (length (filter (λ v, 0 ≤ v ∧ v ≤ 8) l)).
Proof.
  induction 1 as [|v l Hv _ IH]; [done|].
  rewrite !filter_cons. repeat case_decide; simpl; lia.
Qed.

Lemma placed_intro s a :
  shape_ok a (height s) (width s) → Forall (λ v, v = -1 ∨ v = 0) (data a) →
  placed (with_field a s).
Proof.
  intros Ha Hall. split; [done|]. intros p Hp. unfold val, cell. simpl.
  destruct (data a !! _) as [v|] eqn:E; simpl; [|by right].
  by eapply Forall_lookup_1 in Hall.
Qed.

Section ConstructionFacts.

Variable shuffle : list Z → list Z.
Hypothesis shuffle_perm : ∀ l, shuffle l ≡ₚ l.

Lemma create_field_run s :
  0 ≤ height s → 0 ≤ width s →
  0 ≤ mine_amnt s → mine_amnt s ≤ height s * width s →
  ∃ a, __create_field shuffle s = (Ok tt, with_field a s) ∧
       shape_ok a (height s) (width s) ∧
       Forall (λ v, v = -1 ∨ v = 0) (data a) ∧
       count_eq a (-1) = mine_amnt s.
Proof.
  intros Hh Hw Hm0 Hm. unfold __create_field.
  rewrite decide_False by nia.
  set (n := height s * width s). unfold assign_prefix, zeros, full.
  rewrite length_replicate, Z2Nat.id by nia.
  rewrite decide_True by lia.
  rewrite take_replicate, drop_replicate.
  replace (Z.to_nat n `min` Z.to_nat (mine_amnt s))%nat
    with (Z.to_nat (mine_amnt s)) by lia.
  set (flat := replicate _ (-1) ++ replicate _ 0).
  assert (length flat = Z.to_nat n) as Hlen.
  { unfold flat. rewrite length_app, !length_replicate. lia. }
  unfold reshape. rewrite (Permutation_length (shuffle_perm flat)), Hlen.
  rewrite decide_True by (rewrite Z2Nat.id by nia; done).
  eexists. split; [done|]. split; [|split].
  - split; simpl; try done.
    by rewrite (Permutation_length (shuffle_perm flat)).
  - simpl. rewrite (shuffle_perm flat). unfold flat.
    apply Forall_app. split; apply Forall_replicate; auto.
  - unfold count_eq. simpl. rewrite (shuffle_perm flat). unfold flat.
    rewrite filter_app, length_app, !length_filter_replicate.
    rewrite decide_True by done. rewrite decide_False by done. lia.
Qed.

(** [Minefield(mode)] for a mode of the table. *)
Lemma new_run mode m w h :
  __diff_mode !! mode = Some (m, w, h) →
  0 ≤ h → 0 ≤ w → 0 ≤ m → m ≤ h * w →
  ∃ s, new shuffle mode = (Ok tt, s) ∧
       (mine_amnt s, width s, height s) = (m, w, h) ∧
       wf s ∧ adjacency_ok s ∧
       count_eq (field s) (-1) = m ∧
       Forall (λ v, v = -1 ∨ (0 ≤ v ∧ v ≤ 8)) (data (field s)) ∧
       field_map s = zeros2 h w ∧
       _game_lost s = false ∧ _game_won s = None.
Proof.
  intros Hmode Hh Hw Hm0 Hm. unfold new, __init__.
  unfold mbind at 1, M_bind at 1. rewrite Hmode.
  unfold mbind at 1, M_bind at 1, modify at 1. simpl.
  set (s0 := mk_Minefield m w h _ _ _ _).
  destruct (create_field_run s0) as (a & Hrun & Ha & Hall & Hcount);
    [done..|].
  unfold mbind at 1, M_bind at 1. rewrite Hrun.
  pose proof (placed_intro s0 a Ha Hall) as Hplaced.
  destruct (locate_mines_counted _ Hplaced) as (s1 & Hrun1 & Hc).
  unfold mbind at 1, M_bind at 1. rewrite Hrun1. unfold modify.
  pose proof (counted_adjacency _ _ Hplaced Hc) as Hadj.
  destruct Hc as [Hb Ha1 Hcells].
  apply besides_field_eq in Hb as (Em & Ew & Eh & Efm & El & Eg).
  simpl in *. eexists. split; [done|]. simpl.
  rewrite Em, Ew, Eh, El, Eg. split; [done|]. split; [|split; [|split; [|split]]].
  - split; simpl; rewrite ?Ew, ?Eh; [done|].
    split; simpl; try done. unfold zeros, full. by rewrite length_replicate.
  - intros p Hp Hv. unfold in_bounds in Hp. simpl in Hp. rewrite Ew, Eh in Hp.
    destruct (Hadj p Hp) as [Hmine Hnum].
    destruct (decide (val (with_field a s0) p = -1)) as [E|E];
      [by apply Hmine in E|].
    destruct (Hnum E) as [_ Hnum']. exact Hnum'.
  - rewrite <- Hcount. unfold count_eq. f_equal.
    apply (length_filter_Forall2 (λ v, v = -1)).
    eapply (Forall2_cells _ _ _ h w); [done|done|]. intros p Hp.
    destruct (Hadj p Hp) as [Hmine Hnum]. fold (val s1 p).
    change (cell a p) with (val (with_field a s0) p). split; [|done].
    intros E. destruct (decide (val (with_field a s0) p = -1)) as [|E']; [done|].
    by destruct (Hnum E').
  - eapply (Forall_cells _ h w); [done|]. intros p Hp. fold (val s1 p).
    destruct (Hadj p Hp) as [Hmine Hnum].
    destruct (decide (val (with_field a s0) p = -1)) as [E|E]; [left; auto|].
    right. destruct (Hnum E) as [_ ->]. apply mines_around_bounds.
  - done.
Qed.

End ConstructionFacts.

(** The constructor returns for the modes of the table only, and their
    triples leave room for the mines. *)
Lemma diff_mode_cases mode m w h :
  __diff_mode !! mode = Some (m, w, h) →
  0 ≤ h ∧ 0 ≤ w ∧ 0 ≤ m ∧ m ≤ h * w.
Proof.
  unfold __diff_mode.
  destruct (decide (mode = "EASY")) as [->|];
    [rewrite lookup_insert_eq; intros [= <- <- <-]; lia|].
  rewrite lookup_insert_ne by done.
  destruct (decide (mode = "MED")) as [->|];
    [rewrite lookup_insert_eq; intros [= <- <- <-]; lia|].
  rewrite lookup_insert_ne by done.
  destruct (decide (mode = "HARD")) as [->|];
    [rewrite lookup_singleton_eq; intros [= <- <- <-]; lia|].
  by rewrite lookup_singleton_ne.
Qed.

Lemma new_inv shuffle mode s :
  new shuffle mode = (Ok tt, s) →
  ∃ m w h, __diff_mode !! mode = Some (m, w, h) ∧
           (0 ≤ h ∧ 0 ≤ w ∧ 0 ≤ m ∧ m ≤ h * w).
Proof.
  unfold new, __init__. unfold mbind at 1, M_bind at 1.
  destruct (__diff_mode !! mode) as [[[m w] h]|] eqn:E; [|done].
  intros _. exists m, w, h. split; [done|]. by eapply diff_mode_cases.
Qed.

(** ** Checking a concrete board cell by cell *)

Lemma Forall_cells_inb (P : Z * Z → Prop) h w :
  Forall P (cells h w) → ∀ p, inb h w p → P p.
Proof.
  intros H p Hp. rewrite Forall_forall in H. apply H. unfold cells.
  apply list_elem_of_fmap. exists (idx w p).
  split; [symmetry; by eapply unravel_idx|].
  apply elem_of_seq. pose proof (idx_lt _ _ _ Hp). lia.
Qed.

Lemma shape_ok_intro a h w :
  bool_decide (nrows a = h ∧ ncols a = w ∧ 0 ≤ h ∧ 0 ≤ w ∧
               length (data a) = Z.to_nat (h * w)) = true →
  shape_ok a h w.
Proof. intros (? & ? & ? & ? & ?)%bool_decide_eq_true. by split. Qed.

Lemma wf_intro s :
  bool_decide (nrows (field s) = height s ∧ ncols (field s) = width s ∧
               0 ≤ height s ∧ 0 ≤ width s ∧
               length (data (field s)) = Z.to_nat (height s * width s)) = true →
  bool_decide (nrows (field_map s) = height s ∧ ncols (field_map s) = width s ∧
               0 ≤ height s ∧ 0 ≤ width s ∧
               length (data (field_map s)) = Z.to_nat (height s * width s)) = true →
  wf s.
Proof. intros H1 H2. split; by apply shape_ok_intro. Qed.

Lemma adjacency_ok_intro s :
  bool_decide (Forall (λ p, val s p ≠ -1 → val s p = mines_around s p)
                 (cells (height s) (width s))) = true →
  adjacency_ok s.
Proof.
  intros H%bool_decide_eq_true p Hp.
  by apply (Forall_cells_inb _ _ _ H p Hp).
Qed.

Lemma cell_zeros2 h w p : cell (zeros2 h w) p = 0.
Proof.
  unfold cell, zeros2, zeros, full. simpl.
  destruct (replicate _ _ !! _) as [v|] eqn:E; [|done].
  by apply lookup_replicate in E as [-> _].
Qed.

(** * The claims of the specification *)

(** C1. After the adjacency pass on a freshly placed board, every mine is
    still a mine, and every other cell holds a value between 0 and 8 that is
    the number of mines among its neighbours within bounds: the cells next
    to it horizontally, vertically or diagonally, none across an edge.  So
    it is on every object the constructor returns. *)
Theorem locate_mines_adjacency :
  (∀ s, placed s →
     ∃ s', __locate_mines s = (Ok tt, s') ∧
           besides_field s' = besides_field s ∧
           ∀ p, in_bounds s p →
             (val s p = -1 → val s' p = -1) ∧
             (val s p ≠ -1 →
                val s' p ≠ -1 ∧ (0 ≤ val s' p ∧ val s' p ≤ 8) ∧
                ∃ ns, NoDup ns ∧
                      (∀ n, n ∈ ns ↔ in_bounds s n ∧ adjacent p n) ∧
                      val s' p
                      = Z.of_nat (length (filter (λ n, val s' n = -1) ns)))) ∧
  (∀ shuffle : list Z → list Z, (∀ l, shuffle l ≡ₚ l) →
     ∀ mode s, new shuffle mode = (Ok tt, s) →
       ∀ p, in_bounds s p →
         val s p = -1 ∨
         ((0 ≤ val s p ∧ val s p ≤ 8) ∧
          ∃ ns, NoDup ns ∧
                (∀ n, n ∈ ns ↔ in_bounds s n ∧ adjacent p n) ∧
                val s p = Z.of_nat (length (filter (λ n, val s n = -1) ns)))).
Proof.
  split.
  - intros s Hplaced.
    destruct (locate_mines_counted s Hplaced) as (s' & Hrun & Hc).
    exists s'. split; [done|]. split; [by destruct Hc|].
    intros p Hp. destruct (counted_adjacency _ _ Hplaced Hc p Hp) as [Hm Hn].
    split; [done|]. intros Hv. destruct (Hn Hv) as [Hne Hval].
    split; [done|]. split; [rewrite Hval; apply mines_around_bounds|].
    destruct Hc as [Hb _ _]. apply besides_field_eq in Hb as (_ & Hw & Hh & _).
    exists (__surrounds s' p.1 p.2). split; [apply NoDup_surrounds|].
    split; [|done]. intros n. rewrite elem_of_surrounds.
    unfold in_bounds. by rewrite Hw, Hh.
  - intros shuffle Hperm mode s Hnew p Hp.
    destruct (new_inv shuffle mode s Hnew) as (m & w & h & Hmode & Hcfg).
    destruct (new_run shuffle Hperm mode m w h Hmode)
      as (s2 & Hrun & _ & _ & Hok & _); [lia..|].
    rewrite Hnew in Hrun. injection Hrun as <-.
    destruct (decide (val s p = -1)) as [|Hv]; [by left|right].
    rewrite (Hok p Hp Hv). split; [apply mines_around_bounds|].
    exists (__surrounds s p.1 p.2). split; [apply NoDup_surrounds|].
    split; [|done]. intros n. apply elem_of_surrounds.
Qed.

Lemma locate_mines_adjacency_witness :
  let s := mk_Minefield 1 3 3 (mk_ndarray 3 3 [0; 0; 0; 0; -1; 0; 0; 0; 0])
             (mk_ndarray 0 0 []) false None in
  (∃ s', __locate_mines s = (Ok tt, s') ∧ besides_field s' = besides_field s ∧
         ∀ p, in_bounds s p →
           (val s p = -1 → val s' p = -1) ∧
           (val s p ≠ -1 →
              val s' p ≠ -1 ∧ (0 ≤ val s' p ∧ val s' p ≤ 8) ∧
              ∃ ns, NoDup ns ∧
                    (∀ n, n ∈ ns ↔ in_bounds s n ∧ adjacent p n) ∧
                    val s' p
                    = Z.of_nat (length (filter (λ n, val s' n = -1) ns)))) ∧
  (∀ p, in_bounds easy_board p →
     val easy_board p = -1 ∨
     ((0 ≤ val easy_board p ∧ val easy_board p ≤ 8) ∧
      ∃ ns, NoDup ns ∧
            (∀ n, n ∈ ns ↔ in_bounds easy_board n ∧ adjacent p n) ∧
            val easy_board p
            = Z.of_nat (length (filter (λ n, val easy_board n = -1) ns)))).
Proof.
  intros s. split.
  - apply (proj1 locate_mines_adjacency s).
    apply (placed_intro s (mk_ndarray 3 3 [0; 0; 0; 0; -1; 0; 0; 0; 0])).
    + apply shape_ok_intro. vm_compute. reflexivity.
    + apply (bool_decide_unpack _). vm_compute. exact I.
  - apply (proj2 locate_mines_adjacency (λ l, l) (λ l, Permutation_refl l)
             "EASY" easy_board).
    vm_compute. reflexivity.
Defined.

(** C2, as the specification states it, fails: a flagged cell stops the
    flood.  On the easy board with a flag on the zero cell (7, 1), digging
    the zero cell (7, 0) leaves (7, 1) flagged, although it lies in the zero
    region of (7, 0). *)
Lemma dig_flood_flagged_counterexample :
  let s := (flag 7 1 easy_board).2 in
  in_bounds s (7, 0) ∧ vis s (7, 0) = 0 ∧ val s (7, 0) = 0 ∧
  zero_region s (7, 0) (7, 1) ∧ revealed s (7, 0) (7, 1) ∧
  ∃ s', dig 65 7 0 s = (Ok tt, s') ∧ vis s' (7, 1) = 2.
Proof.
  intros s.
  assert (in_bounds s (7, 0)) as H0 by (unfold in_bounds, inb; vm_compute; intuition discriminate).
  assert (in_bounds s (7, 1)) as H1 by (unfold in_bounds, inb; vm_compute; intuition discriminate).
  assert (zero_region s (7, 0) (7, 1)) as Hz.
  { apply (zero_region_next _ _ (7, 0)).
    - by apply zero_region_here.
    - done.
    - unfold adjacent. simpl. split; [done|lia].
    - done. }
  split; [done|]. split; [done|]. split; [done|]. split; [done|].
  split; [exists (7, 1); auto|].
  eexists. split; [vm_compute; reflexivity|]. by vm_compute.
Qed.

(** C2, amended. For a well-formed state whose board carries the adjacency
    counts, and a buried zero cell [p] within bounds, [dig] (with a stack
    deeper than the number of buried cells) returns, and the cells it has
    set to dug are exactly those the flood runs over: [p], and on from
    every buried zero cell to its buried neighbours; flagged and dug cells
    are neither dug nor passed.  None of these cells is a mine, so the lost
    flag is as before.  When the zero region of [p] and its border are all
    buried, these cells are exactly that region and its border. *)
Theorem dig_flood s p fuel :
  wf s → adjacency_ok s → in_bounds s p → vis s p = 0 → val s p = 0 →
  (buried_count s < fuel)%nat →
  ∃ s', dig fuel p.1 p.2 s = (Ok tt, s') ∧
        (∀ q, in_bounds s q →
              (reach s p q → vis s' q = 1) ∧
              (¬ reach s p q → vis s' q = vis s q)) ∧
        (∀ q, reach s p q → val s q ≠ -1) ∧
        _game_lost s' = _game_lost s ∧ field s' = field s ∧
        ((∀ q, revealed s p q → vis s q = 0) →
         ∀ q, reach s p q ↔ revealed s p q).
Proof.
  intros Hwf Hok Hp H0 Hzero Hfuel.
  destruct (dig_spec fuel s p Hwf Hp Hfuel) as (s' & Hrun & Hpost).
  exists s'. split; [done|].
  assert (∀ q, reach s p q → val s q ≠ -1) as Hsafe.
  { intros q Hr. eapply reach_no_mine; eauto. lia. }
  pose proof (post_grows _ _ _ Hpost) as Hg.
  split; [|split; [done|split; [|split]]].
  - intros q Hq. split.
    + intros Hr. by destruct (dig_post_complete _ _ _ _ Hpost Hr).
    + intros Hnr. destruct (grows_mono _ _ Hg q Hq) as [E|Hn]; [done|].
      destruct Hnr. by apply (post_reach _ _ _ Hpost).
  - pose proof (grows_lost _ _ Hg) as Hl.
    destruct (_game_lost s') eqn:E', (_game_lost s) eqn:E; try done.
    + destruct (proj1 Hl eq_refl) as [?|(q & Hq & Hn & Hv)]; [done|].
      destruct (Hsafe q); [|done]. by apply (post_reach _ _ _ Hpost).
    + exfalso. assert (false = true) as [=]. apply Hl. by left.
  - by destruct (geometry_eq _ _ (grows_geometry _ _ Hg)) as (_ & _ & _ & ? & _).
  - intros Hall q. split.
    + intros Hr. eapply reach_revealed; [done|]. by apply zero_region_here.
    + by apply revealed_reach.
Qed.

Lemma dig_flood_witness :
  ∃ s', dig 65 7 0 easy_board = (Ok tt, s') ∧
        (∀ q, in_bounds easy_board q →
              (reach easy_board (7, 0) q → vis s' q = 1) ∧
              (¬ reach easy_board (7, 0) q → vis s' q = vis easy_board q)) ∧
        (∀ q, reach easy_board (7, 0) q → val easy_board q ≠ -1) ∧
        _game_lost s' = _game_lost easy_board ∧
        field s' = field easy_board ∧
        ((∀ q, revealed easy_board (7, 0) q → vis easy_board q = 0) →
         ∀ q, reach easy_board (7, 0) q ↔ revealed easy_board (7, 0) q).
Proof.
  apply (dig_flood easy_board (7, 0) 65).
  - apply wf_intro; vm_compute; reflexivity.
  - apply adjacency_ok_intro. vm_compute. reflexivity.
  - unfold in_bounds, inb. vm_compute. intuition discriminate.
  - vm_compute. reflexivity.
  - vm_compute. reflexivity.
  - vm_compute. lia.
Defined.


(** C4, as the specification states it, fails: a negative coordinate is
    not rejected.  On the easy board [dig(-1, 0)] and [flag(-1, 0)] return
    normally; numpy reads the row from the end, so the first digs the cell
    (7, 0), goes on to the neighbours of (-1, 0) that are within bounds,
    which are mines of the first row, and the game is lost. *)
Lemma dig_negative_row_counterexample :
  ¬ in_bounds easy_board (-1, 0) ∧
  (∃ s', dig 65 (-1) 0 easy_board = (Ok tt, s') ∧
         vis easy_board (7, 0) = 0 ∧ vis s' (7, 0) = 1 ∧
         _game_lost easy_board = false ∧ _game_lost s' = true) ∧
  (∃ s', flag (-1) 0 easy_board = (Ok tt, s') ∧
         vis easy_board (7, 0) = 0 ∧ vis s' (7, 0) = 2).
Proof.
  split; [|split].
  - unfold in_bounds, inb. simpl. lia.
  - eexists. split; [vm_compute; reflexivity|]. by vm_compute.
  - eexists. split; [vm_compute; reflexivity|]. by vm_compute.
Qed.

(** C4, amended. At a coordinate numpy rejects (row outside
    [-height, height) or column outside [-width, width)), [dig] and [flag]
    raise and leave the object as it was.  The exception is IndexError
    whenever both indices fit a signed 64-bit integer; it is OverflowError
    exactly where the row lies from 2^63 to 2^64 - 1, or the row fits and
    the column lies from 2^63 to 2^64 - 1, and IndexError everywhere
    else. *)
Theorem out_of_range_raises s r c fuel :
  shape_ok (field_map s) (height s) (width s) →
  r < - height s ∨ height s ≤ r ∨ c < - width s ∨ width s ≤ c →
  ∃ e, dig (S fuel) r c s = (Raise e, s) ∧
       flag r c s = (Raise e, s) ∧
       ((- 2 ^ 63 ≤ r ∧ r < 2 ^ 63) → (- 2 ^ 63 ≤ c ∧ c < 2 ^ 63) →
        e = IndexError) ∧
       (e = IndexError ∨ e = OverflowError) ∧
       (e = OverflowError ↔
        (2 ^ 63 ≤ r ∧ r < 2 ^ 64) ∨
        ((- 2 ^ 63 ≤ r ∧ r < 2 ^ 63) ∧ (2 ^ 63 ≤ c ∧ c < 2 ^ 64))).
Proof.
  intros Ha Hout. exists (index_error r c).
  assert (get_field_map r c s = (Raise (index_error r c), s)) as Hget.
  { unfold get_field_map, getitem. by rewrite (offset_out _ _ _ _ _ Ha Hout). }
  split; [|split; [|split; [|split]]].
  - simpl. unfold mbind, M_bind. by rewrite Hget.
  - unfold flag, mbind, M_bind. by rewrite Hget.
  - apply index_error_fits.
  - apply index_error_cases.
  - apply index_error_overflow.
Qed.

Lemma out_of_range_raises_witness :
  ∃ e, dig 1 (2 ^ 63) 0 easy_board = (Raise e, easy_board) ∧
       flag (2 ^ 63) 0 easy_board = (Raise e, easy_board) ∧
       ((- 2 ^ 63 ≤ 2 ^ 63 ∧ 2 ^ 63 < 2 ^ 63) → (- 2 ^ 63 ≤ 0 ∧ 0 < 2 ^ 63) →
        e = IndexError) ∧
       (e = IndexError ∨ e = OverflowError) ∧
       (e = OverflowError ↔
        (2 ^ 63 ≤ 2 ^ 63 ∧ 2 ^ 63 < 2 ^ 64) ∨
        ((- 2 ^ 63 ≤ 2 ^ 63 ∧ 2 ^ 63 < 2 ^ 63) ∧ (2 ^ 63 ≤ 0 ∧ 0 < 2 ^ 64))).
Proof.
  apply (out_of_range_raises easy_board (2 ^ 63) 0 0).
  - apply shape_ok_intro. vm_compute. reflexivity.
  - right. left. vm_compute. discriminate.
Defined.

(** C5. Digging a buried mine within bounds marks that cell dug and sets
    the lost flag; no other cell changes; and after any further sequence of
    calls ([dig], [flag], [__str__], [game_won], [game_lost], returning or
    raising) [game_lost] still answers true. *)
Theorem dig_mine s p fuel :
  wf s → in_bounds s p → vis s p = 0 → val s p = -1 →
  ∃ s', dig (S fuel) p.1 p.2 s = (Ok tt, s') ∧
        vis s' p = 1 ∧ _game_lost s' = true ∧
        (∀ q, in_bounds s q → q ≠ p → vis s' q = vis s q) ∧
        (∀ os, (game_lost (exec_all os s')).1 = Ok true).
Proof.
  intros Hwf Hp H0 Hmine. rewrite dig_inb by done.
  rewrite !decide_True by done. eexists. split; [done|].
  split; [by apply mark_vis|]. split; [done|]. split.
  - intros q Hq Hne. by apply mark_vis_ne.
  - intros os. unfold game_lost, gets. simpl. f_equal.
    by apply exec_all_stays_lost.
Qed.

Lemma dig_mine_witness :
  ∃ s', dig 1 0 3 easy_board = (Ok tt, s') ∧
        vis s' (0, 3) = 1 ∧ _game_lost s' = true ∧
        (∀ q, in_bounds easy_board q → q ≠ (0, 3) →
              vis s' q = vis easy_board q) ∧
        (∀ os, (game_lost (exec_all os s')).1 = Ok true).
Proof.
  apply (dig_mine easy_board (0, 3) 0).
  - apply wf_intro; vm_compute; reflexivity.
  - unfold in_bounds, inb. vm_compute. intuition discriminate.
  - vm_compute. reflexivity.
  - vm_compute. reflexivity.
Defined.

(** C6. At a coordinate within bounds whose cell is dug (1) or flagged (2),
    [dig] returns without changing the object: the visibility grid, the
    lost flag and with them the answer of [game_won] are what they were. *)
Theorem dig_not_buried_noop s p fuel :
  wf s → in_bounds s p → vis s p = 1 ∨ vis s p = 2 →
  dig (S fuel) p.1 p.2 s = (Ok tt, s) ∧
  ∀ s', (dig (S fuel) p.1 p.2 s).2 = s' →
        field_map s' = field_map s ∧ _game_lost s' = _game_lost s ∧
        (game_won s').1 = (game_won s).1.
Proof.
  intros Hwf Hp Hv. rewrite dig_inb by done.
  rewrite decide_False by lia. split; [done|]. by intros s' <-.
Qed.

Lemma dig_not_buried_noop_witness :
  let s := (flag 7 1 easy_board).2 in
  dig 1 7 1 s = (Ok tt, s) ∧
  ∀ s', (dig 1 7 1 s).2 = s' →
        field_map s' = field_map s ∧ _game_lost s' = _game_lost s ∧
        (game_won s').1 = (game_won s).1.
Proof.
  intros s. apply (dig_not_buried_noop s (7, 1) 0).
  - apply wf_intro; vm_compute; reflexivity.
  - unfold in_bounds, inb. vm_compute. intuition discriminate.
  - right. vm_compute. reflexivity.
Defined.

(** C7, as the specification states it, fails on the second token: the
    table of the class spells it MED, and MEDIUM is refused like any other
    string. *)
Lemma new_MEDIUM_counterexample :
  __diff_mode !! "MEDIUM" = None ∧
  new (λ l, l) "MEDIUM" = (Raise KeyError, fresh_object).
Proof. split; vm_compute; reflexivity. Qed.

(** C7, amended. With each of the tokens EASY, MED and HARD the constructor
    returns an object whose (mine_amnt, width, height) is (10, 8, 8),
    (40, 15, 15), (40, 30, 16); its board and its visibility grid have
    height rows and width columns; the board holds exactly mine_amnt mines
    and width * height - mine_amnt counts between 0 and 8; every cell is
    buried and the lost flag is false.  Any other token raises KeyError. *)
Theorem new_difficulty (shuffle : list Z → list Z) :
  (∀ l, shuffle l ≡ₚ l) →
  (∀ mode cfg,
     (mode, cfg) ∈ [("EASY", (10, 8, 8)); ("MED", (40, 15, 15));
                    ("HARD", (40, 30, 16))] →
     ∃ s, new shuffle mode = (Ok tt, s) ∧
          (mine_amnt s, width s, height s) = cfg ∧
          wf s ∧
          count_eq (field s) (-1) = mine_amnt s ∧
          Z.of_nat (length (filter (λ v, 0 ≤ v ∧ v ≤ 8) (data (field s))))
          = width s * height s - mine_amnt s ∧
          (∀ p, in_bounds s p → vis s p = 0) ∧
          count_eq (field_map s) 0 = width s * height s ∧
          _game_lost s = false) ∧
  (∀ mode, mode ∉ ["EASY"; "MED"; "HARD"] →
           ∃ s, new shuffle mode = (Raise KeyError, s)).
Proof.
  intros Hperm. split.
  - intros mode [[m w] h] Hin.
    assert (__diff_mode !! mode = Some (m, w, h) ∧
            0 ≤ h ∧ 0 ≤ w ∧ 0 ≤ m ∧ m ≤ h * w) as (Hmode & Hh & Hw & Hm0 & Hm).
    { rewrite !elem_of_cons, elem_of_nil in Hin.
      destruct Hin as [[= -> -> -> ->]|[[= -> -> -> ->]|[[= -> -> -> ->]|[]]]];
        (split; [vm_compute; reflexivity|lia]). }
    destruct (new_run shuffle Hperm mode m w h Hmode Hh Hw Hm0 Hm)
      as (s & Hrun & Hcfg & Hwf & _ & Hmines & Hall & Hfm & Hl & _).
    exists s. split; [done|]. split; [done|]. split; [done|]. split; [congruence|].
    injection Hcfg as Em Ew Eh.
    pose proof (shape_len _ _ _ (wf_field _ Hwf)) as Hlen.
    pose proof (length_filter_split _ Hall) as Hsplit.
    unfold count_eq in Hmines. rewrite Em, Ew, Eh in *.
    split; [|split; [|split]].
    + rewrite Hlen in Hsplit. nia.
    + intros p _. unfold vis. rewrite Hfm. apply cell_zeros2.
    + unfold count_eq. rewrite Hfm. unfold zeros2, zeros, full. simpl.
      rewrite length_filter_replicate, decide_True by done. nia.
    + done.
  - intros mode Hout. exists fresh_object.
    assert (__diff_mode !! mode = None) as Hnone.
    { rewrite !not_elem_of_cons in Hout. destruct Hout as (? & ? & ? & _).
      unfold __diff_mode.
      rewrite !lookup_insert_ne by done. by apply lookup_singleton_ne. }
    unfold new, __init__, mbind, M_bind. by rewrite Hnone.
Qed.

Lemma new_difficulty_witness :
  (∀ mode cfg,
     (mode, cfg) ∈ [("EASY", (10, 8, 8)); ("MED", (40, 15, 15));
                    ("HARD", (40, 30, 16))] →
     ∃ s, new (λ l, l) mode = (Ok tt, s) ∧
          (mine_amnt s, width s, height s) = cfg ∧
          wf s ∧
          count_eq (field s) (-1) = mine_amnt s ∧
          Z.of_nat (length (filter (λ v, 0 ≤ v ∧ v ≤ 8) (data (field s))))
          = width s * height s - mine_amnt s ∧
          (∀ p, in_bounds s p → vis s p = 0) ∧
          count_eq (field_map s) 0 = width s * height s ∧
          _game_lost s = false) ∧
  (∀ mode, mode ∉ ["EASY"; "MED"; "HARD"] →
           ∃ s, new (λ l, l) mode = (Raise KeyError, s)).
Proof. apply (new_difficulty (λ l, l)). intros l. reflexivity. Defined.

(** C8. Within bounds, [flag] turns a buried cell into a flagged one and a
    flagged cell into a buried one (so that flagging a buried cell twice
    gives back the very same object), leaves a dug cell alone, and in every
    case changes no other cell, nor the board, nor the lost flag, nor the
    answer of [game_won]. *)
Theorem flag_toggle s p :
  wf s → in_bounds s p →
  ∃ s', flag p.1 p.2 s = (Ok tt, s') ∧
        (vis s p = 0 → vis s' p = 2 ∧ flag p.1 p.2 s' = (Ok tt, s)) ∧
        (vis s p = 2 → vis s' p = 0) ∧
        (vis s p = 1 → s' = s) ∧
        (∀ q, in_bounds s q → q ≠ p → vis s' q = vis s q) ∧
        field s' = field s ∧ _game_lost s' = _game_lost s ∧
        (game_won s').1 = (game_won s).1.
Proof.
  intros Hwf Hp. eexists. split; [by apply flag_inb|].
  split; [|split; [|split; [|split; [|split; [|split]]]]].
  - intros H0. rewrite decide_True by done. split; [by apply mark_vis|].
    rewrite flag_inb; [|by apply mark_wf|done].
    rewrite mark_vis by done. rewrite decide_False, decide_True by done.
    rewrite mark_mark. rewrite <- H0. by rewrite mark_id.
  - intros H2. rewrite decide_False, decide_True by lia. by apply mark_vis.
  - intros H1. by rewrite !decide_False by lia.
  - intros q Hq Hne. repeat case_decide; try done; by apply mark_vis_ne.
  - by repeat case_decide.
  - by repeat case_decide.
  - rewrite <- (flag_keeps_game_won p.1 p.2 s). by rewrite flag_inb.
Qed.

Lemma flag_toggle_witness :
  ∃ s', flag 7 1 easy_board = (Ok tt, s') ∧
        (vis easy_board (7, 1) = 0 →
         vis s' (7, 1) = 2 ∧ flag 7 1 s' = (Ok tt, easy_board)) ∧
        (vis easy_board (7, 1) = 2 → vis s' (7, 1) = 0) ∧
        (vis easy_board (7, 1) = 1 → s' = easy_board) ∧
        (∀ q, in_bounds easy_board q → q ≠ (7, 1) →
              vis s' q = vis easy_board q) ∧
        field s' = field easy_board ∧
        _game_lost s' = _game_lost easy_board ∧
        (game_won s').1 = (game_won easy_board).1.
Proof.
  apply (flag_toggle easy_board (7, 1)).
  - apply wf_intro; vm_compute; reflexivity.
  - unfold in_bounds, inb. vm_compute. intuition discriminate.
Defined.

(** C9. At a coordinate within bounds, [dig] returns with a stack no deeper
    than width * height + 1.  Its trace, the coordinates at which it wrote
    dug, has no repetition and at most width * height entries; each entry
    was buried before and is dug after; a cell that was dug or flagged
    before is left as it was. *)
Theorem dig_terminates s p fuel :
  wf s → in_bounds s p → (Z.to_nat (height s * width s) < fuel)%nat →
  ∃ l s', dig_log fuel p.1 p.2 s = (Ok l, s') ∧
          dig fuel p.1 p.2 s = (Ok tt, s') ∧
          NoDup l ∧ (length l ≤ Z.to_nat (height s * width s))%nat ∧
          (∀ q, q ∈ l ↔ in_bounds s q ∧ vis s q = 0 ∧ vis s' q = 1) ∧
          (∀ q, in_bounds s q → vis s q ≠ 0 → vis s' q = vis s q).
Proof.
  intros Hwf Hp Hfuel.
  assert (buried_count s ≤ Z.to_nat (height s * width s))%nat as Hle.
  { unfold buried_count. rewrite <- (shape_len _ _ _ (wf_field_map _ Hwf)).
    apply length_filter. }
  destruct (dig_log_spec fuel s p Hwf Hp ltac:(lia))
    as (l & s' & Hlog & Hdig & Hpost & [Hnd Hel Hc]).
  exists l, s'. do 3 (split; [done|]). split; [lia|]. split.
  - intros q. rewrite Hel. unfold newly. tauto.
  - intros q Hq Hv.
    destruct (grows_mono _ _ (post_grows _ _ _ Hpost) q Hq) as [|[? ?]]; [done|lia].
Qed.

Lemma dig_terminates_witness :
  ∃ l s', dig_log 65 7 0 easy_board = (Ok l, s') ∧
          dig 65 7 0 easy_board = (Ok tt, s') ∧
          NoDup l ∧ (length l ≤ 64)%nat ∧
          (∀ q, q ∈ l ↔ in_bounds easy_board q ∧ vis easy_board q = 0 ∧
                        vis s' q = 1) ∧
          (∀ q, in_bounds easy_board q → vis easy_board q ≠ 0 →
                vis s' q = vis easy_board q).
Proof.
  apply (dig_terminates easy_board (7, 0) 65).
  - apply wf_intro; vm_compute; reflexivity.
  - unfold in_bounds, inb. vm_compute. intuition discriminate.
  - vm_compute. lia.
Defined.

(** C10. [game_won] writes the attribute [_game_won] and nothing else, and
    no method reads that attribute: with any other cached value [dig],
    [flag], [game_lost], [__surrounds], [__str__] and [game_won] itself give
    the same outcome and the same object up to the cache. *)
Theorem game_won_frame s :
  (∃ b, game_won s = (Ok b, with_game_won (Some b) s)) ∧
  (let s' := (game_won s).2 in
   width s' = width s ∧ height s' = height s ∧ mine_amnt s' = mine_amnt s ∧
   field s' = field s ∧ field_map s' = field_map s ∧
   _game_lost s' = _game_lost s) ∧
  ∀ x : option bool,
    (∀ fuel r c, dig fuel r c (with_game_won x s)
                 = ((dig fuel r c s).1, with_game_won x (dig fuel r c s).2)) ∧
    (∀ r c, flag r c (with_game_won x s)
            = ((flag r c s).1, with_game_won x (flag r c s).2)) ∧
    (game_lost (with_game_won x s)).1 = (game_lost s).1 ∧
    (∀ r c, __surrounds (with_game_won x s) r c = __surrounds s r c) ∧
    __str__ (with_game_won x s)
    = ((__str__ s).1, with_game_won x (__str__ s).2) ∧
    game_won (with_game_won x s) = game_won s.
Proof.
  split; [|split].
  - eexists. apply game_won_run.
  - by rewrite game_won_run.
  - intros x. split; [|split; [|split; [|split; [|split]]]].
    + intros fuel r c. apply dig_ignores_cache.
    + intros r c. apply flag_ignores_cache.
    + done.
    + done.
    + apply str_ignores_cache.
    + by rewrite !game_won_run.
Qed.

(** * Further properties of the code *)

(** ** Raw coordinates *)

Lemma norm_index_Some i n i' :
  norm_index i n = Some i' → (0 ≤ i' ∧ i' < n) ∧ norm_index i' n = Some i'.
Proof.
  unfold norm_index at 1. intros H.
  assert (0 ≤ i' ∧ i' < n) as Hb.
  { destruct (Z.leb_spec 0 i), (Z.ltb_spec i n), (Z.leb_spec (- n) i),
      (Z.ltb_spec i 0); simpl in H; simplify_eq; lia. }
  split; [done|]. apply norm_index_inb; lia.
Qed.

Lemma norm_coord_in_bounds s r c p :
  norm_coord s r c = Some p → in_bounds s p.
Proof.
  unfold norm_coord. intros H.
  destruct (norm_index r (height s)) as [r'|] eqn:Hr; [|done].
  destruct (norm_index c (width s)) as [c'|] eqn:Hc; [|done].
  simpl in H. injection H as <-.
  apply norm_index_Some in Hr as [? _]. apply norm_index_Some in Hc as [? _].
  by split.
Qed.

Lemma norm_coord_inb s p : in_bounds s p → norm_coord s p.1 p.2 = Some p.
Proof.
  intros [[] []]. unfold norm_coord. rewrite !norm_index_inb by lia.
  by destruct p.
Qed.

Lemma offset_norm_coord s a r c :
  shape_ok a (height s) (width s) →
  offset a r c = idx (width s) <$> norm_coord s r c.
Proof.
  unfold offset, norm_coord. intros [-> -> _ _ _].
  destruct (norm_index r _); [|done]. simpl.
  by destruct (norm_index c _).
Qed.

Section Raw.

Context (s : Minefield) (r c : Z) (Hwf : wf s).

Lemma offset_raw a p :
  shape_ok a (height s) (width s) → norm_coord s r c = Some p →
  offset a r c = offset a p.1 p.2.
Proof.
  intros Ha Hn. rewrite !(offset_norm_coord s) by done. rewrite Hn.
  by rewrite norm_coord_inb by by eapply norm_coord_in_bounds.
Qed.

Lemma get_field_map_raw p :
  norm_coord s r c = Some p → get_field_map r c s = (Ok (vis s p), s).
Proof.
  intros Hn. pose proof (norm_coord_in_bounds _ _ _ _ Hn) as Hp.
  pose proof (getitem_inb _ _ _ (wf_field_map _ Hwf) _ Hp) as E.
  unfold get_field_map, getitem in *.
  by rewrite (offset_raw _ p (wf_field_map _ Hwf) Hn), E.
Qed.

Lemma get_field_raw p :
  norm_coord s r c = Some p → get_field r c s = (Ok (val s p), s).
Proof.
  intros Hn. pose proof (norm_coord_in_bounds _ _ _ _ Hn) as Hp.
  pose proof (getitem_inb _ _ _ (wf_field _ Hwf) _ Hp) as E.
  unfold get_field, getitem in *.
  by rewrite (offset_raw _ p (wf_field _ Hwf) Hn), E.
Qed.

Lemma set_field_map_raw p v :
  norm_coord s r c = Some p → set_field_map r c v s = (Ok tt, mark s p v).
Proof.
  intros Hn. pose proof (norm_coord_in_bounds _ _ _ _ Hn) as Hp.
  pose proof (set_field_map_inb s p Hwf Hp v) as E.
  unfold set_field_map, setitem in *.
  rewrite (offset_raw _ p (wf_field_map _ Hwf) Hn).
  destruct (offset (field_map s) p.1 p.2 ≫= _) as [a|]; [exact E|done].
Qed.

Lemma get_field_map_none :
  norm_coord s r c = None →
  get_field_map r c s = (Raise (index_error r c), s).
Proof.
  intros Hn. unfold get_field_map, getitem.
  rewrite (offset_norm_coord s) by apply Hwf. rewrite Hn. reflexivity.
Qed.

(** [flag] at a raw coordinate is [flag] at the cell numpy reads there. *)
Lemma flag_raw p :
  norm_coord s r c = Some p → flag r c s = flag p.1 p.2 s.
Proof.
  intros Hn. pose proof (norm_coord_in_bounds _ _ _ _ Hn) as Hp.
  rewrite (flag_inb s p Hwf Hp).
  unfold flag, mbind, M_bind. rewrite (get_field_map_raw p Hn).
  case_decide; [by apply set_field_map_raw|].
  rewrite (get_field_map_raw p Hn).
  case_decide; [by apply set_field_map_raw|done].
Qed.

Lemma flag_none :
  norm_coord s r c = None → flag r c s = (Raise (index_error r c), s).
Proof.
  intros Hn. unfold flag, mbind, M_bind. by rewrite (get_field_map_none Hn).
Qed.

Lemma dig_none fuel :
  norm_coord s r c = None →
  dig (S fuel) r c s = (Raise (index_error r c), s).
Proof.
  intros Hn. simpl. unfold mbind, M_bind. by rewrite (get_field_map_none Hn).
Qed.

(** One level of [dig] at a raw coordinate: the cell is the one numpy
    reads, the neighbours are those of the raw coordinate. *)
Lemma dig_raw fuel p :
  norm_coord s r c = Some p →
  dig (S fuel) r c s =
    if decide (vis s p = 0) then
      if decide (val s p = -1) then (Ok tt, with_game_lost true (mark s p 1))
      else if decide (val s p = 0) then
        for_each (__surrounds s r c) (λ q, dig fuel q.1 q.2) (mark s p 1)
      else (Ok tt, mark s p 1)
    else (Ok tt, s).
Proof.
  intros Hn. pose proof (norm_coord_in_bounds _ _ _ _ Hn) as Hp.
  simpl. unfold mbind at 1, M_bind at 1. rewrite (get_field_map_raw p Hn).
  case_decide; [|done].
  unfold mbind at 1, M_bind at 1. rewrite (set_field_map_raw p 1 Hn).
  unfold mbind at 1, M_bind at 1.
  assert (get_field r c (mark s p 1) = (Ok (val s p), mark s p 1)) as ->.
  { pose proof (get_field_raw p Hn) as E. unfold get_field in *. simpl.
    destruct (getitem (field s) r c); by simplify_eq. }
  repeat case_decide; done.
Qed.

End Raw.

(** ** What every call keeps *)

Lemma plays_refl s : wf s → plays s s.
Proof.
  intros Hwf. split; [done|done|done|by intros q _ []|].
  split; [by left|]. intros [?|(q & _ & ? & ? & _)]; [done|lia].
Qed.

Lemma plays_in_bounds s s' q : plays s s' → in_bounds s' q ↔ in_bounds s q.
Proof.
  intros [Hb _ _ _ _]. injection Hb as _ Hw Hh _.
  unfold in_bounds. by rewrite Hw, Hh.
Qed.

Lemma plays_val s s' q : plays s s' → val s' q = val s q.
Proof. intros [Hb _ _ _ _]. injection Hb as _ _ _ Hf. unfold val. by rewrite Hf. Qed.

Lemma plays_trans s1 s2 s3 : plays s1 s2 → plays s2 s3 → plays s1 s3.
Proof.
  intros H12 H23.
  pose proof (λ q, plays_in_bounds s1 s2 q H12) as Hb.
  pose proof (λ q, plays_val s1 s2 q H12) as Hv.
  destruct H12 as [Hg1 Hw1 Hd1 Hm1 Hl1], H23 as [Hg2 Hw2 Hd2 Hm2 Hl2].
  split; [congruence|done| | |].
  - intros q Hq H1. apply Hd2; [by apply Hb|]. by apply Hd1.
  - intros q Hq Hne.
    pose proof (Hd1 q Hq) as Hd1q. pose proof (Hd2 q (proj2 (Hb q) Hq)) as Hd2q.
    destruct (decide (vis s2 q = vis s1 q)) as [E|E].
    + rewrite <- E. apply Hm2; [by apply Hb|congruence].
    + destruct (Hm1 q Hq E) as [H1 H2].
      split; [done|].
      destruct (decide (vis s3 q = vis s2 q)) as [E'|E']; [by rewrite E'|].
      by apply Hm2; [apply Hb|].
  - rewrite Hl2, Hl1. split.
    + intros [[?|(q & Hq & Hn & H1 & Hval)]|(q & Hq & Hn & H1 & Hval)];
        [by left|right..].
      * exists q. split; [done|]. split; [done|]. split; [|done].
        apply Hd2; [by apply Hb|done].
      * apply Hb in Hq. exists q. rewrite Hv in Hval.
        split; [done|]. split; [|done].
        intros E. apply Hn. by apply Hd1.
    + intros [?|(q & Hq & Hn & H1 & Hval)]; [by left; left|].
      destruct (decide (vis s2 q = 1)) as [E|E].
      * left; right. by exists q.
      * right. exists q. rewrite Hv. split; [by apply Hb|done].
Qed.

Global Instance game_step_preorder : PreOrder game_step.
Proof.
  split.
  - intros s Hwf. by apply plays_refl.
  - intros s1 s2 s3 H12 H23 Hwf. specialize (H12 Hwf).
    eapply plays_trans; [done|]. apply H23, (plays_wf _ _ H12).
Qed.

Lemma grows_plays s s' : grows s s' → plays s s'.
Proof.
  intros [Hg Hwf Hm Hc Hl].
  apply geometry_eq in Hg as (Hma & Hw & Hh & Hf & _).
  split; [congruence|done| | |].
  - intros q Hq H1. destruct (Hm q Hq) as [E|[? ?]]; [congruence|done].
  - intros q Hq Hne. destruct (Hm q Hq) as [E|[? ?]]; [done|]. auto.
  - rewrite Hl. split; (intros [?|(q & Hq & Hn & Hval)]; [by left|right]);
      exists q; unfold newly in *.
    + intuition lia.
    + destruct Hval as [H1 Hval]. destruct (Hm q Hq) as [E|[? ?]]; [|done].
      congruence.
Qed.

Lemma mark_plays s p v :
  wf s → in_bounds s p → vis s p = 0 ∨ vis s p = 2 → v = 0 ∨ v = 2 →
  plays s (mark s p v).
Proof.
  intros Hwf Hp Hold Hnew.
  assert (∀ q, in_bounds s q → q ≠ p → vis (mark s p v) q = vis s q) as Hne.
  { intros q Hq Hqp. by apply mark_vis_ne. }
  pose proof (mark_vis s p Hwf Hp v) as Hv.
  split; [done|by apply mark_wf| | |].
  - intros q Hq H1. rewrite Hne; [done..|]. intros ->. lia.
  - intros q Hq Hch. destruct (decide (q = p)) as [->|Hqp].
    + rewrite Hv. split; [done|]. lia.
    + by rewrite Hne in Hch.
  - simpl. split; [by left|]. intros [?|(q & Hq & Hn & H1 & _)]; [done|].
    exfalso. destruct (decide (q = p)) as [->|Hqp].
    + rewrite Hv in H1. lia.
    + rewrite Hne in H1 by done. done.
Qed.

Lemma dig_game_step fuel r c : steps game_step (dig fuel r c).
Proof.
  revert r c. induction fuel as [|fuel IH]; intros r c.
  - apply steps_out_of_fuel, _.
  - intros s Hwf. destruct (norm_coord s r c) as [p|] eqn:Hn.
    2:{ rewrite (dig_none s r c Hwf fuel Hn). by apply plays_refl. }
    pose proof (norm_coord_in_bounds _ _ _ _ Hn) as Hp.
    rewrite (dig_raw s r c Hwf fuel p Hn).
    destruct (decide (vis s p = 0)) as [H0|H0]; [|by apply plays_refl].
    pose proof (grows_mark s p Hwf Hp H0) as Hg.
    destruct (decide (val s p = -1)); [by apply grows_plays|].
    destruct (decide (val s p = 0)); [|by apply grows_plays].
    eapply plays_trans; [by apply grows_plays|].
    apply (steps_for_each game_step); [|apply (grows_wf _ _ Hg)].
    intros q _. apply IH.
Qed.

Lemma flag_game_step r c : steps game_step (flag r c).
Proof.
  intros s Hwf. destruct (norm_coord s r c) as [p|] eqn:Hn.
  2:{ rewrite (flag_none s r c Hwf Hn). by apply plays_refl. }
  pose proof (norm_coord_in_bounds _ _ _ _ Hn) as Hp.
  rewrite (flag_raw s r c Hwf p Hn), (flag_inb s p Hwf Hp). simpl.
  repeat case_decide; [apply mark_plays; auto..|by apply plays_refl].
Qed.

Lemma exec_game_step o : ∀ s, game_step s (exec o s).
Proof.
  destruct o as [fuel r c|r c| | |]; intros s; simpl.
  - apply dig_game_step.
  - apply flag_game_step.
  - rewrite (str_keeps_self s). reflexivity.
  - rewrite game_won_run. simpl. intros Hwf.
    split; [done|by destruct Hwf|done|by intros q _ []|].
    split; [by left|]. intros [?|(q & _ & ? & ? & _)]; [done|].
    unfold vis in *. simpl in *. lia.
  - reflexivity.
Qed.

Lemma exec_all_game_step os : ∀ s, game_step s (exec_all os s).
Proof.
  induction os as [|o os IH]; intros s; simpl; [reflexivity|].
  etrans; [apply exec_game_step|apply IH].
Qed.

(** ** The lost flag and the win count on the objects of a game *)

Lemma consistent_plays s s' : consistent s → plays s s' → consistent s'.
Proof.
  intros [Hwf Hl] Hp. split; [apply (plays_wf _ _ Hp)|].
  rewrite (plays_lost _ _ Hp), Hl. unfold mine_dug. split.
  - intros [(q & Hq & H1 & Hv)|(q & Hq & Hn & H1 & Hv)]; exists q.
    + split; [by apply (plays_in_bounds _ _ _ Hp)|].
      split; [by apply (plays_dug _ _ Hp)|]. by rewrite (plays_val _ _ _ Hp).
    + split; [by apply (plays_in_bounds _ _ _ Hp)|].
      split; [done|]. by rewrite (plays_val _ _ _ Hp).
  - intros (q & Hq & H1 & Hv). apply (plays_in_bounds _ _ _ Hp) in Hq.
    rewrite (plays_val _ _ _ Hp) in Hv.
    destruct (decide (vis s q = 1)); [left|right]; by exists q.
Qed.

Lemma cell_lookup a h w p :
  shape_ok a h w → inb h w p → data a !! idx w p = Some (cell a p).
Proof.
  intros Ha Hp. pose proof (getitem_inb _ _ _ Ha _ Hp) as E.
  unfold getitem in E. by rewrite (offset_inb _ _ _ Ha _ Hp) in E.
Qed.

Lemma Forall2_cells_inv (P : Z → Z → Prop) a b h w :
  shape_ok a h w → shape_ok b h w → Forall2 P (data a) (data b) →
  ∀ p, inb h w p → P (cell a p) (cell b p).
Proof.
  intros Ha Hb Hall p Hp.
  eapply Forall2_lookup_lr; [exact Hall|by eapply cell_lookup..].
Qed.

(** Where no mine is dug, the dug cells and the mines fill the grid
    exactly when every other cell is dug. *)
Lemma count_dug_safe l k :
  Forall2 (λ x y : Z, y = 1 → x ≠ -1) l k →
  Nat.le (Nat.add (length (filter (λ y, y = 1) k))
                   (length (filter (λ x, x = -1) l))) (length l) ∧
  (Nat.add (length (filter (λ y, y = 1) k)) (length (filter (λ x, x = -1) l))
   = length l ↔ Forall2 (λ x y : Z, x ≠ -1 → y = 1) l k).
Proof.
  induction 1 as [|x y l k Hxy _ [IHle IH]]; [by split|].
  rewrite !filter_cons, Forall2_cons.
  destruct (decide (y = 1)) as [Hy|Hy], (decide (x = -1)) as [Hx|Hx]; simpl.
  - by specialize (Hxy Hy).
  - split; [lia|]. rewrite <- IH.
    split; [intros; split; [done|lia]|intros [_ ?]; lia].
  - split; [lia|]. rewrite <- IH.
    split; [intros; split; [done|lia]|intros [_ ?]; lia].
  - split; [lia|]. split; [lia|]. intros [? _]. tauto.
Qed.

Section Reachable.

Variable shuffle : list Z → list Z.
Hypothesis shuffle_perm : ∀ l, shuffle l ≡ₚ l.

Lemma new_consistent mode s :
  new shuffle mode = (Ok tt, s) →
  consistent s ∧ count_eq (field s) (-1) = mine_amnt s.
Proof.
  intros Hnew.
  destruct (new_inv shuffle mode s Hnew) as (m & w & h & Hmode & Hcfg).
  destruct (new_run shuffle shuffle_perm mode m w h Hmode)
    as (s2 & Hrun & Hc & Hwf & _ & Hcount & _ & Hfm & Hl & _); [lia..|].
  rewrite Hnew in Hrun. injection Hrun as <-. injection Hc as Hm _ _.
  split; [|congruence]. split; [done|]. rewrite Hl. split; [done|].
  intros (q & _ & H1 & _). unfold vis in H1. rewrite Hfm, cell_zeros2 in H1. lia.
Qed.

Lemma game_consistent mode s0 os :
  new shuffle mode = (Ok tt, s0) →
  consistent (exec_all os s0) ∧
  count_eq (field (exec_all os s0)) (-1) = mine_amnt (exec_all os s0).
Proof.
  intros Hnew. destruct (new_consistent mode s0 Hnew) as [Hc Hcount].
  pose proof (exec_all_game_step os s0 (consistent_wf _ Hc)) as Hp.
  split; [by eapply consistent_plays|].
  destruct Hp as [Hb _ _ _ _]. injection Hb as -> _ _ ->. done.
Qed.

End Reachable.

(** ** What [dig] keeps, whatever its coordinate and outcome *)

Global Instance dig_step_preorder : PreOrder dig_step.
Proof.
  split.
  - intros s Hwf. by apply grows_refl.
  - intros s1 s2 s3 H12 H23 Hwf. specialize (H12 Hwf).
    eapply grows_trans; [done|]. apply H23, (grows_wf _ _ H12).
Qed.

Lemma dig_dig_step fuel r c : steps dig_step (dig fuel r c).
Proof.
  revert r c. induction fuel as [|fuel IH]; intros r c.
  - apply steps_out_of_fuel, _.
  - intros s Hwf. destruct (norm_coord s r c) as [p|] eqn:Hn.
    2:{ rewrite (dig_none s r c Hwf fuel Hn). by apply grows_refl. }
    pose proof (norm_coord_in_bounds _ _ _ _ Hn) as Hp.
    rewrite (dig_raw s r c Hwf fuel p Hn).
    destruct (decide (vis s p = 0)) as [H0|H0]; [|by apply grows_refl].
    pose proof (grows_mark s p Hwf Hp H0) as Hg.
    destruct (decide (val s p = -1)); [done|].
    destruct (decide (val s p = 0)); [|done].
    eapply grows_trans; [done|].
    apply (steps_for_each dig_step); [|apply (grows_wf _ _ Hg)].
    intros q _. apply IH.
Qed.

Lemma filter_Forall_id {A} (P : A → Prop) `{!∀ x, Decision (P x)} (l : list A) :
  Forall P l → filter P l = l.
Proof.
  induction 1 as [|x l Hx _ IH]; [done|].
  by rewrite filter_cons, decide_True, IH.
Qed.

(** X1. [__surrounds] lists, each once, the cells within bounds next to the
    coordinate horizontally, vertically or diagonally, never the coordinate
    itself and never a cell across an edge: at most eight, exactly eight
    away from the edges; and within bounds being a neighbour is mutual. *)
Theorem surrounds_neighbours self p :
  NoDup (__surrounds self p.1 p.2) ∧
  (∀ n, n ∈ __surrounds self p.1 p.2 ↔ in_bounds self n ∧ adjacent p n) ∧
  (p ∉ __surrounds self p.1 p.2) ∧
  (length (__surrounds self p.1 p.2) ≤ 8)%nat ∧
  ((0 < p.1 ∧ p.1 + 1 < height self) ∧ (0 < p.2 ∧ p.2 + 1 < width self) →
   length (__surrounds self p.1 p.2) = 8%nat) ∧
  (∀ n, in_bounds self p → n ∈ __surrounds self p.1 p.2 →
        p ∈ __surrounds self n.1 n.2).
Proof.
  split; [apply NoDup_surrounds|]. split; [apply elem_of_surrounds|].
  split; [|split; [apply length_surrounds|split]].
  - rewrite elem_of_surrounds. by intros [_ [? _]].
  - intros [[] []]. unfold __surrounds. rewrite filter_Forall_id.
    + by rewrite sur_locs_eq.
    + rewrite sur_locs_eq. repeat constructor; simpl; lia.
  - intros n Hp [Hn Hadj]%elem_of_surrounds.
    apply elem_of_surrounds. split; [done|by apply adjacent_sym].
Qed.

Lemma surrounds_neighbours_witness :
  length (__surrounds easy_board 3 3) = 8%nat ∧
  ((2, 3) ∈ __surrounds easy_board 3 3 → (3, 3) ∈ __surrounds easy_board 2 3).
Proof.
  destruct (surrounds_neighbours easy_board (3, 3)) as (_ & _ & _ & _ & H8 & Hsym).
  split.
  - apply H8. vm_compute. intuition discriminate.
  - apply (Hsym (2, 3)). unfold in_bounds, inb. vm_compute. intuition discriminate.
Defined.

(** X2. [flag] does not reject a negative index that numpy accepts: with
    row in [-height, height) and column in [-width, width) it acts on the
    cell (row mod height, column mod width), as [flag] called on that cell
    does. *)
Theorem flag_wraps s r c :
  wf s → (- height s ≤ r ∧ r < height s) → (- width s ≤ c ∧ c < width s) →
  flag r c s = flag (r `mod` height s) (c `mod` width s) s.
Proof.
  intros Hwf Hr Hc.
  assert (∀ i n, - n ≤ i ∧ i < n → norm_index i n = Some (i `mod` n)) as Hnorm.
  { intros i n Hi. destruct (decide (0 ≤ i)).
    - rewrite norm_index_inb by lia. by rewrite Z.mod_small by lia.
    - rewrite norm_index_wrap by lia. f_equal.
      apply (Z.mod_unique_pos _ _ (-1)); lia. }
  apply (flag_raw s r c Hwf (r `mod` height s, c `mod` width s)).
  unfold norm_coord. by rewrite !Hnorm.
Qed.

Lemma flag_wraps_witness : flag (-1) (-8) easy_board = flag 7 0 easy_board.
Proof.
  apply (flag_wraps easy_board (-1) (-8)).
  - apply wf_intro; vm_compute; reflexivity.
  - vm_compute. intuition discriminate.
  - vm_compute. intuition discriminate.
Defined.

(** X3. No sequence of calls of [dig], [flag], [__str__], [game_won] and
    [game_lost], at whatever coordinates and whether they return or raise,
    changes the board, its size or the number of mines, or the shape of the
    two grids. *)
Theorem calls_keep_board os s :
  wf s →
  wf (exec_all os s) ∧
  field (exec_all os s) = field s ∧
  width (exec_all os s) = width s ∧
  height (exec_all os s) = height s ∧
  mine_amnt (exec_all os s) = mine_amnt s.
Proof.
  intros Hwf. destruct (exec_all_game_step os s Hwf) as [Hb Hwf' _ _ _].
  injection Hb as -> -> -> ->. done.
Qed.

Lemma calls_keep_board_witness :
  let os := [Flag 7 1; Dig 65 7 0; GameWon; Dig 65 (-1) 0; Str; Flag 99 0] in
  wf (exec_all os easy_board) ∧
  field (exec_all os easy_board) = field easy_board ∧
  width (exec_all os easy_board) = width easy_board ∧
  height (exec_all os easy_board) = height easy_board ∧
  mine_amnt (exec_all os easy_board) = mine_amnt easy_board.
Proof.
  intros os. apply (calls_keep_board os easy_board).
  apply wf_intro; vm_compute; reflexivity.
Defined.

(** X4. There is no undo: a cell that is dug stays dug under every
    sequence of calls, and any other cell only ever holds buried, flagged
    or dug once it changes. *)
Theorem dug_stays_dug os s q :
  wf s → in_bounds s q →
  (vis s q = 1 → vis (exec_all os s) q = 1) ∧
  (vis (exec_all os s) q ≠ vis s q →
   (vis s q = 0 ∨ vis s q = 2) ∧
   (vis (exec_all os s) q = 0 ∨ vis (exec_all os s) q = 1 ∨
    vis (exec_all os s) q = 2)).
Proof.
  intros Hwf Hq. pose proof (exec_all_game_step os s Hwf) as Hp.
  split; [by apply (plays_dug _ _ Hp)|by apply (plays_vis _ _ Hp)].
Qed.

Lemma dug_stays_dug_witness :
  let s := (dig 65 7 0 easy_board).2 in
  let os := [Flag 7 0; Dig 65 7 0; Flag 7 0; Dig 65 0 0] in
  (vis s (7, 0) = 1 → vis (exec_all os s) (7, 0) = 1) ∧
  (vis (exec_all os s) (7, 0) ≠ vis s (7, 0) →
   (vis s (7, 0) = 0 ∨ vis s (7, 0) = 2) ∧
   (vis (exec_all os s) (7, 0) = 0 ∨ vis (exec_all os s) (7, 0) = 1 ∨
    vis (exec_all os s) (7, 0) = 2)).
Proof.
  intros s os. apply (dug_stays_dug os s (7, 0)).
  - apply wf_intro; vm_compute; reflexivity.
  - unfold in_bounds, inb. vm_compute. intuition discriminate.
Defined.

(** X5. [dig], at any coordinate, with any depth of stack and whether it
    returns, raises or runs out of stack, writes nothing but dug over
    buried: a cell that is flagged or dug is left as it is, a buried cell
    stays buried or becomes dug, and the number of buried cells does not
    grow. *)
Theorem dig_only_digs_buried fuel r c s :
  wf s →
  (∀ q, in_bounds s q →
        vis (dig fuel r c s).2 q = vis s q ∨
        (vis s q = 0 ∧ vis (dig fuel r c s).2 q = 1)) ∧
  (buried_count (dig fuel r c s).2 ≤ buried_count s)%nat.
Proof.
  intros Hwf. pose proof (dig_dig_step fuel r c s Hwf) as Hg.
  split; [apply (grows_mono _ _ Hg)|apply (grows_count _ _ Hg)].
Qed.

Lemma dig_only_digs_buried_witness :
  let s := (flag 5 5 easy_board).2 in
  (∀ q, in_bounds s q →
        vis (dig 3 7 0 s).2 q = vis s q ∨
        (vis s q = 0 ∧ vis (dig 3 7 0 s).2 q = 1)) ∧
  (buried_count (dig 3 7 0 s).2 ≤ buried_count s)%nat.
Proof.
  intros s. apply (dig_only_digs_buried 3 7 0 s).
  apply wf_intro; vm_compute; reflexivity.
Defined.

(** X6. On every object a game reaches from the constructor, [game_lost]
    answers true exactly when a mine lies dug. *)
Theorem lost_iff_mine_dug (shuffle : list Z → list Z) mode s0 os :
  (∀ l, shuffle l ≡ₚ l) → new shuffle mode = (Ok tt, s0) →
  (game_lost (exec_all os s0)).1 = Ok true ↔ mine_dug (exec_all os s0).
Proof.
  intros Hperm Hnew.
  destruct (game_consistent shuffle Hperm mode s0 os Hnew) as [[_ Hl] _].
  rewrite <- Hl. unfold game_lost, gets. simpl.
  split; [by intros [= ->]|by intros ->].
Qed.

Lemma lost_iff_mine_dug_witness :
  let os := [Flag 0 0; Dig 65 7 0; Flag 0 0; Dig 65 0 0] in
  (game_lost (exec_all os easy_board)).1 = Ok true ↔
  mine_dug (exec_all os easy_board).
Proof.
  intros os. apply (lost_iff_mine_dug (λ l, l) "EASY" easy_board os).
  - intros l. reflexivity.
  - vm_compute. reflexivity.
Defined.

(** X7. On every object a game reaches from the constructor, [game_won]
    answers true exactly when no mine lies dug and every cell that is not a
    mine is dug, wherever the flags are. *)
Theorem won_iff_all_safe_dug (shuffle : list Z → list Z) mode s0 os :
  (∀ l, shuffle l ≡ₚ l) → new shuffle mode = (Ok tt, s0) →
  (game_won (exec_all os s0)).1 = Ok true ↔
  (¬ mine_dug (exec_all os s0) ∧
   ∀ q, in_bounds (exec_all os s0) q → val (exec_all os s0) q ≠ -1 →
        vis (exec_all os s0) q = 1).
Proof.
  intros Hperm Hnew.
  destruct (game_consistent shuffle Hperm mode s0 os Hnew) as [[Hwf Hl] Hcount].
  set (s := exec_all os s0) in *. rewrite game_won_run. simpl.
  unfold all_safe_dug.
  pose proof (wf_field _ Hwf) as Hf. pose proof (wf_field_map _ Hwf) as Hfm.
  assert (¬ mine_dug s → Forall2 (λ x y : Z, y = 1 → x ≠ -1)
                            (data (field s)) (data (field_map s))) as Hsafe.
  { intros Hno. eapply Forall2_cells; [done..|]. intros p Hp H1 Hm.
    apply Hno. by exists p. }
  unfold count_eq in *.
  pose proof (shape_len _ _ _ Hf) as Hlen.
  pose proof (shape_h _ _ _ Hf). pose proof (shape_w _ _ _ Hf).
  split.
  - intros [= [Hnl Hc]%bool_decide_eq_true].
    assert (¬ mine_dug s) as Hno.
    { intros Hd. apply Hl in Hd. congruence. }
    split; [done|]. destruct (count_dug_safe _ _ (Hsafe Hno)) as [_ Hiff].
    assert (Forall2 (λ x y : Z, x ≠ -1 → y = 1)
              (data (field s)) (data (field_map s))) as H2.
    { apply Hiff. rewrite Hlen. nia. }
    intros q Hq Hv.
    exact (Forall2_cells_inv _ _ _ _ _ Hf Hfm H2 q Hq Hv).
  - intros [Hno Hall]. f_equal. apply bool_decide_eq_true. split.
    + destruct (_game_lost s); [|done]. destruct Hno. by apply Hl.
    + destruct (count_dug_safe _ _ (Hsafe Hno)) as [_ Hiff].
      assert (Forall2 (λ x y : Z, x ≠ -1 → y = 1)
                (data (field s)) (data (field_map s))) as H2.
      { eapply Forall2_cells; [done..|]. intros p Hp. apply Hall, Hp. }
      apply Hiff in H2. rewrite Hlen in H2. nia.
Qed.

Lemma won_iff_all_safe_dug_witness :
  let os := [Flag 0 0; Dig 65 7 0; Dig 65 1 2] in
  (game_won (exec_all os easy_board)).1 = Ok true ↔
  (¬ mine_dug (exec_all os easy_board) ∧
   ∀ q, in_bounds (exec_all os easy_board) q →
        val (exec_all os easy_board) q ≠ -1 →
        vis (exec_all os easy_board) q = 1).
Proof.
  intros os. apply (won_iff_all_safe_dug (λ l, l) "EASY" easy_board os).
  - intros l. reflexivity.
  - vm_compute. reflexivity.
Defined.

(** X8. A lost game is never won: once the lost flag is set, [game_won]
    answers false after every further sequence of calls. *)
Theorem lost_never_won os s :
  _game_lost s = true → (game_won (exec_all os s)).1 = Ok false.
Proof.
  intros Hl. pose proof (exec_all_stays_lost os s Hl) as Hl'.
  rewrite game_won_run. simpl. f_equal. unfold all_safe_dug.
  apply bool_decide_eq_false. rewrite Hl'. by intros [? _].
Qed.

Lemma lost_never_won_witness :
  let s := (dig 1 0 0 easy_board).2 in
  (game_won (exec_all [Dig 65 7 0; Dig 65 1 2; Flag 0 1] s)).1 = Ok false.
Proof.
  intros s. apply (lost_never_won _ s). vm_compute. reflexivity.
Defined.

(** X9. Digging a buried cell within bounds whose count is positive digs
    that cell alone: no neighbour is touched and the lost flag is kept. *)
Theorem dig_numbered s p fuel :
  wf s → in_bounds s p → vis s p = 0 → val s p ≠ -1 → val s p ≠ 0 →
  ∃ s', dig (S fuel) p.1 p.2 s = (Ok tt, s') ∧
        vis s' p = 1 ∧
        (∀ q, in_bounds s q → q ≠ p → vis s' q = vis s q) ∧
        _game_lost s' = _game_lost s ∧ field s' = field s.
Proof.
  intros Hwf Hp H0 Hm Hz. rewrite dig_inb by done.
  rewrite decide_True by done. rewrite !decide_False by done.
  eexists. split; [done|]. split; [by apply mark_vis|].
  split; [|done]. intros q Hq Hne. by apply mark_vis_ne.
Qed.

Lemma dig_numbered_witness :
  ∃ s', dig 1 1 2 easy_board = (Ok tt, s') ∧
        vis s' (1, 2) = 1 ∧
        (∀ q, in_bounds easy_board q → q ≠ (1, 2) →
              vis s' q = vis easy_board q) ∧
        _game_lost s' = _game_lost easy_board ∧ field s' = field easy_board.
Proof.
  apply (dig_numbered easy_board (1, 2) 0).
  - apply wf_intro; vm_compute; reflexivity.
  - unfold in_bounds, inb. vm_compute. intuition discriminate.
  - vm_compute. reflexivity.
  - vm_compute. discriminate.
  - vm_compute. discriminate.
Defined.

(** ** Flags *)

Lemma flag_toggled s r c :
  wf s →
  (flag r c s).2 = match norm_coord s r c with
                   | Some p => toggled s p
                   | None => s
                   end.
Proof.
  intros Hwf. destruct (norm_coord s r c) as [p|] eqn:Hn.
  - rewrite (flag_raw s r c Hwf p Hn).
    by rewrite (flag_inb s p Hwf (norm_coord_in_bounds _ _ _ _ Hn)).
  - by rewrite (flag_none s r c Hwf Hn).
Qed.

Lemma toggled_wf s p : wf s → wf (toggled s p).
Proof. intros Hwf. unfold toggled. repeat case_decide; auto using mark_wf. Qed.

Lemma toggled_norm_coord s p r c :
  norm_coord (toggled s p) r c = norm_coord s r c.
Proof. unfold toggled. by repeat case_decide. Qed.

Lemma toggled_vis_ne s p q :
  wf s → in_bounds s p → in_bounds s q → q ≠ p →
  vis (toggled s p) q = vis s q.
Proof.
  intros Hwf Hp Hq Hne. unfold toggled.
  repeat case_decide; try done; by apply mark_vis_ne.
Qed.

Lemma toggled_toggled s p : wf s → in_bounds s p → toggled (toggled s p) p = s.
Proof.
  intros Hwf Hp. unfold toggled at 2.
  destruct (decide (vis s p = 0)) as [H0|H0].
  - unfold toggled. rewrite mark_vis by done.
    rewrite decide_False, decide_True by done.
    rewrite mark_mark. rewrite <- H0. by apply mark_id.
  - destruct (decide (vis s p = 2)) as [H2|H2].
    + unfold toggled. rewrite mark_vis by done. rewrite decide_True by done.
      rewrite mark_mark. rewrite <- H2. by apply mark_id.
    + unfold toggled. by rewrite !decide_False.
Qed.

Lemma mark_comm s p q v u :
  wf s → in_bounds s p → in_bounds s q → p ≠ q →
  mark (mark s p v) q u = mark (mark s q u) p v.
Proof.
  intros Hwf Hp Hq Hne. unfold mark, with_field_map. simpl. do 2 f_equal.
  apply list_insert_insert_ne. intros E. apply Hne.
  rewrite (shape_cols _ _ _ (wf_field_map _ Hwf)) in E.
  symmetry. by eapply idx_inj.
Qed.

Lemma toggled_comm s p q :
  wf s → in_bounds s p → in_bounds s q →
  toggled (toggled s p) q = toggled (toggled s q) p.
Proof.
  intros Hwf Hp Hq. destruct (decide (p = q)) as [->|Hne]; [done|].
  unfold toggled at 1 3.
  rewrite (toggled_vis_ne s p q), (toggled_vis_ne s q p) by done.
  unfold toggled.
  destruct (decide (vis s p = 0)), (decide (vis s q = 0)),
    (decide (vis s p = 2)), (decide (vis s q = 2));
    try done; by apply mark_comm.
Qed.

(** X10. [flag] undoes itself: called twice at the same coordinate, of any
    value and whether the calls return or raise, it leaves the object
    exactly as it was; and two calls of [flag] at any two coordinates give
    the same object in either order. *)
Theorem flag_twice_and_order s r c r' c' :
  wf s →
  (flag r c (flag r c s).2).2 = s ∧
  (flag r' c' (flag r c s).2).2 = (flag r c (flag r' c' s).2).2.
Proof.
  intros Hwf.
  assert (∀ r c, wf (flag r c s).2) as Hwf'.
  { intros r0 c0. rewrite flag_toggled by done.
    destruct (norm_coord s r0 c0); [by apply toggled_wf|done]. }
  split.
  - rewrite (flag_toggled (flag r c s).2) by done.
    rewrite (flag_toggled s) by done.
    destruct (norm_coord s r c) as [p|] eqn:Hn.
    + rewrite toggled_norm_coord, Hn. apply toggled_toggled; [done|].
      by eapply norm_coord_in_bounds.
    + by rewrite Hn.
  - rewrite (flag_toggled (flag r c s).2), (flag_toggled (flag r' c' s).2) by done.
    rewrite !(flag_toggled s) by done.
    destruct (norm_coord s r c) as [p|] eqn:Hn,
      (norm_coord s r' c') as [q|] eqn:Hn';
      rewrite ?toggled_norm_coord, ?Hn, ?Hn'; try done.
    symmetry. apply toggled_comm; [done|by eapply norm_coord_in_bounds..].
Qed.

Lemma flag_twice_and_order_witness :
  (flag (-1) 3 (flag (-1) 3 easy_board).2).2 = easy_board ∧
  (flag 2 2 (flag (-1) 3 easy_board).2).2
  = (flag (-1) 3 (flag 2 2 easy_board).2).2.
Proof.
  apply (flag_twice_and_order easy_board (-1) 3 2 2).
  apply wf_intro; vm_compute; reflexivity.
Defined.

(** ** The text of the minefield *)

Lemma elem_of_range lo hi x : x ∈ range lo hi → lo ≤ x ∧ x < hi.
Proof.
  unfold range. intros (i & -> & Hi%elem_of_seq)%list_elem_of_fmap. lia.
Qed.

Section Agree.

Context (s1 s2 : Minefield).

Lemma agree_ret {A} (a : A) : agree s1 s2 (mret a) a.
Proof. by split. Qed.

Lemma agree_gets {A} (f : Minefield → A) :
  f s1 = f s2 → agree s1 s2 (gets f) (f s1).
Proof. intros E. split; [done|]. unfold gets. by rewrite E. Qed.

Lemma agree_bind {A B} (m : M A) (f : A → M B) v u :
  agree s1 s2 m v → agree s1 s2 (f v) u → agree s1 s2 (m ≫= f) u.
Proof.
  intros [Hm1 Hm2] [Hf1 Hf2]. unfold agree, mbind, M_bind.
  by rewrite Hm1, Hm2.
Qed.

Lemma agree_bind_ex {A B} (m : M A) (f : A → M B) v :
  agree s1 s2 m v → (∃ u, agree s1 s2 (f v) u) →
  ∃ u, agree s1 s2 (m ≫= f) u.
Proof. intros Hm [u Hu]. exists u. by eapply agree_bind. Qed.

Lemma agree_for_fold {A B} (l : list A) (body : B → A → M B) :
  (∀ acc x, x ∈ l → ∃ v, agree s1 s2 (body acc x) v) →
  ∀ acc, ∃ v, agree s1 s2 (for_fold l acc body) v.
Proof.
  induction l as [|x l IH]; intros Hb acc; simpl.
  - eexists. apply agree_ret.
  - destruct (Hb acc x) as [v Hv]; [left|].
    eapply agree_bind_ex; [exact Hv|].
    apply IH. intros a y Hy. apply Hb. by right.
Qed.

End Agree.

Lemma str_agree s1 s2 :
  wf s1 → wf s2 →
  width s2 = width s1 → height s2 = height s1 → field_map s2 = field_map s1 →
  (∀ q, in_bounds s1 q → vis s1 q = 1 → val s2 q = val s1 q) →
  ∃ text, __str__ s1 = (Ok text, s1) ∧ __str__ s2 = (Ok text, s2).
Proof.
  intros Hwf1 Hwf2 Hw Hh Hfm Hdug.
  assert (∀ q, in_bounds s2 q ↔ in_bounds s1 q) as Hb.
  { intros q. unfold in_bounds. by rewrite Hw, Hh. }
  assert (∀ q, vis s2 q = vis s1 q) as Hvis.
  { intros q. unfold vis. by rewrite Hfm. }
  assert (∀ q, in_bounds s1 q →
               agree s1 s2 (get_field_map q.1 q.2) (vis s1 q)) as Hget.
  { intros q Hq. split; [by apply get_field_map_inb|].
    rewrite <- Hvis. apply get_field_map_inb; [done|by apply Hb]. }
  cut (∃ text, agree s1 s2 (__str__) text); [intros [t Ht]; by exists t|].
  unfold __str__.
  eapply agree_bind_ex; [by apply agree_gets|].
  eapply agree_bind_ex; [by apply agree_gets|].
  match goal with
  | |- ∃ _, agree _ _ (for_fold ?l ?a ?b ≫= _) _ =>
      destruct (agree_for_fold s1 s2 l b) with (acc := a) as [v Hv]
  end.
  2:{ eapply agree_bind_ex; [exact Hv|]. eexists. apply agree_ret. }
  intros string row [Hr0 Hr1]%elem_of_range.
  match goal with
  | |- ∃ _, agree _ _ (for_fold ?l ?a ?b ≫= _) _ =>
      destruct (agree_for_fold s1 s2 l b) with (acc := a) as [v Hv]
  end.
  2:{ eapply agree_bind_ex; [exact Hv|]. eexists. apply agree_ret. }
  intros row_str col [Hc0 Hc1]%elem_of_range.
  assert (in_bounds s1 (row, col)) as Hq by (split; simpl; lia).
  pose proof (Hget (row, col) Hq) as Hg. simpl in Hg.
  eapply agree_bind_ex; [exact Hg|].
  destruct (decide (vis s1 (row, col) = 0)) as [H0|H0];
    [eexists; apply agree_ret|].
  eapply agree_bind_ex; [exact Hg|].
  destruct (decide (vis s1 (row, col) = 2)) as [H2|H2];
    [eexists; apply agree_ret|].
  eapply agree_bind_ex; [exact Hg|].
  destruct (decide (vis s1 (row, col) = 1)) as [H1|H1];
    [|eexists; apply agree_ret].
  assert (agree s1 s2 (get_field row col) (val s1 (row, col))) as Hf.
  { split; [by apply (get_field_inb s1 (row, col))|].
    rewrite <- (Hdug (row, col)) by done.
    apply (get_field_inb s2 (row, col)); [done|by apply Hb]. }
  eapply agree_bind_ex; [exact Hf|].
  case_decide; eexists; apply agree_ret.
Qed.


(** X11. [__str__] returns on every well-formed object and leaves it as it
    is, and its text tells nothing of what lies under a buried or flagged
    cell: two objects of the same size and visibility grid whose boards
    agree on the dug cells give the same text. *)
Theorem str_shows_dug_only s1 s2 :
  wf s1 → wf s2 →
  width s2 = width s1 → height s2 = height s1 → field_map s2 = field_map s1 →
  (∀ q, in_bounds s1 q → vis s1 q = 1 → val s2 q = val s1 q) →
  ∃ text, __str__ s1 = (Ok text, s1) ∧ __str__ s2 = (Ok text, s2).
Proof. apply str_agree. Qed.

Lemma str_shows_dug_only_witness :
  let s1 := (dig 1 1 2 easy_board).2 in
  let s2 := with_field (mk_ndarray 8 8 (replicate 64 4)) s1 in
  ∃ text, __str__ s1 = (Ok text, s1) ∧ __str__ s2 = (Ok text, s2).
Proof.
  intros s1 s2. apply (str_shows_dug_only s1 s2).
  - apply wf_intro; vm_compute; reflexivity.
  - apply wf_intro; vm_compute; reflexivity.
  - reflexivity.
  - reflexivity.
  - reflexivity.
  - apply (Forall_cells_inb (λ q, vis s1 q = 1 → val s2 q = val s1 q) 8 8).
    apply (bool_decide_unpack _). vm_compute. exact I.
Defined.

(** ** Placing the mines *)

(** X12. For any size and any number of mines that fits the grid,
    [__create_field] returns a board of height rows and width columns that
    holds exactly [mine_amnt] entries -1 and zeros elsewhere, whatever the
    shuffle, and writes no other attribute. *)
Theorem create_field_counts (shuffle : list Z → list Z) s :
  (∀ l, shuffle l ≡ₚ l) →
  0 ≤ height s → 0 ≤ width s →
  0 ≤ mine_amnt s → mine_amnt s ≤ height s * width s →
  ∃ s', __create_field shuffle s = (Ok tt, s') ∧
        besides_field s' = besides_field s ∧
        shape_ok (field s') (height s) (width s) ∧
        count_eq (field s') (-1) = mine_amnt s ∧
        count_eq (field s') 0 = height s * width s - mine_amnt s ∧
        placed s'.
Proof.
  intros Hperm Hh Hw Hm0 Hm.
  destruct (create_field_run shuffle Hperm s Hh Hw Hm0 Hm)
    as (a & Hrun & Ha & Hall & Hcount).
  exists (with_field a s). split; [done|]. split; [done|]. split; [done|].
  split; [done|]. split; [|by apply placed_intro].
  unfold count_eq in *. simpl.
  pose proof (shape_len _ _ _ Ha) as Hlen.
  assert (length (data a) = Nat.add (length (filter (λ v, v = -1) (data a)))
                              (length (filter (λ v, v = 0) (data a)))) as Hs.
  { clear -Hall. induction Hall as [|v l Hv _ IH]; [done|].
    rewrite !filter_cons. repeat case_decide; simpl; lia. }
  rewrite Hlen in Hs. nia.
Qed.

Lemma create_field_counts_witness :
  let s := mk_Minefield 3 4 2 (mk_ndarray 0 0 []) (mk_ndarray 0 0 []) false None in
  ∃ s', __create_field reverse s = (Ok tt, s') ∧
        besides_field s' = besides_field s ∧
        shape_ok (field s') (height s) (width s) ∧
        count_eq (field s') (-1) = mine_amnt s ∧
        count_eq (field s') 0 = height s * width s - mine_amnt s ∧
        placed s'.
Proof.
  intros s. apply (create_field_counts reverse s).
  - intros l. apply reverse_Permutation.
  - vm_compute. discriminate.
  - vm_compute. discriminate.
  - vm_compute. discriminate.
  - vm_compute. discriminate.
Defined.

(** ** Two digs in either order *)

Lemma ndarray_ext a b h w :
  shape_ok a h w → shape_ok b h w → (∀ p, inb h w p → cell a p = cell b p) →
  a = b.
Proof.
  intros Ha Hb Hcells.
  assert (data a = data b) as Hd.
  { apply list_eq_Forall2. by eapply (Forall2_cells eq). }
  destruct Ha as [Hr Hc _ _ _], Hb as [Hr' Hc' _ _ _].
  destruct a, b. simpl in *. congruence.
Qed.

(** A cell the flood from [q] runs over is still run over after a dig at
    [p], unless that dig has dug it. *)
Lemma reach_after_dig s p s1 q x :
  dig_post s p s1 → reach s q x → newly s s1 x ∨ reach s1 q x.
Proof.
  intros [Hg Hc _ _]. induction 1 as [q Hq H0|q n x Hq H0 Hv Hn Hr IH].
  - destruct (grows_mono _ _ Hg q Hq) as [E|?]; [right|by left].
    apply reach_here; [by apply (grows_in_bounds _ _ _ Hg)|congruence].
  - destruct IH as [?|Hr1]; [by left|right].
    destruct (grows_mono _ _ Hg q Hq) as [E|Hnew].
    + eapply reach_next; [by apply (grows_in_bounds _ _ _ Hg)|congruence| | |done].
      * by rewrite (grows_val _ _ _ Hg).
      * by rewrite (grows_surrounds _ _ _ _ Hg).
    + destruct (reach_buried _ _ _ Hr1) as [_ Hn0].
      by destruct (Hc q n Hq Hnew Hv Hn).
Qed.

(** The cells dug by a dig at [p] and then a dig at [q]: those either
    flood runs over on the object they start from. *)
Lemma dig_dig_vis s p q s1 s12 :
  dig_post s p s1 → dig_post s1 q s12 →
  ∀ x, in_bounds s x →
    (reach s p x ∨ reach s q x → vis s12 x = 1) ∧
    (newly s s12 x → reach s p x ∨ reach s q x).
Proof.
  intros Hpost1 Hpost2 x Hx.
  pose proof (post_grows _ _ _ Hpost1) as Hg1.
  pose proof (post_grows _ _ _ Hpost2) as Hg2.
  pose proof (proj2 (grows_in_bounds _ _ x Hg1) Hx) as Hx1.
  split.
  - intros Hr.
    assert (newly s s1 x ∨ reach s1 q x) as [[H0 H1]|Hr1].
    { destruct Hr as [Hr|Hr].
      - left. by eapply dig_post_complete.
      - by eapply reach_after_dig. }
    + destruct (grows_mono _ _ Hg2 x Hx1) as [E|[? ?]]; [congruence|done].
    + by destruct (dig_post_complete _ _ _ _ Hpost2 Hr1).
  - intros Hn.
    destruct (grows_newly_split _ _ _ _ Hg1 Hg2 Hx Hn) as [Hn1|[_ Hn2]].
    + left. by apply (post_reach _ _ _ Hpost1).
    + right. eapply reach_grows; [exact Hg1|].
      by apply (post_reach _ _ _ Hpost2).
Qed.

(** X13. Two digs within bounds give the same object in either order. *)
Theorem dig_order s p q fuel :
  wf s → in_bounds s p → in_bounds s q → (buried_count s < fuel)%nat →
  ∃ s', dig fuel q.1 q.2 (dig fuel p.1 p.2 s).2 = (Ok tt, s') ∧
        dig fuel p.1 p.2 (dig fuel q.1 q.2 s).2 = (Ok tt, s').
Proof.
  intros Hwf Hp Hq Hfuel.
  destruct (dig_spec fuel s p Hwf Hp Hfuel) as (s1 & Hrun1 & Hpost1).
  destruct (dig_spec fuel s q Hwf Hq Hfuel) as (s2 & Hrun2 & Hpost2).
  pose proof (post_grows _ _ _ Hpost1) as Hg1.
  pose proof (post_grows _ _ _ Hpost2) as Hg2.
  destruct (dig_spec fuel s1 q) as (s12 & Hrun12 & Hpost12);
    [apply (grows_wf _ _ Hg1)|by apply (grows_in_bounds _ _ _ Hg1)|
     pose proof (grows_count _ _ Hg1); lia|].
  destruct (dig_spec fuel s2 p) as (s21 & Hrun21 & Hpost21);
    [apply (grows_wf _ _ Hg2)|by apply (grows_in_bounds _ _ _ Hg2)|
     pose proof (grows_count _ _ Hg2); lia|].
  rewrite Hrun1, Hrun2. simpl. rewrite Hrun12, Hrun21.
  exists s12. split; [done|]. do 2 f_equal.
  pose proof (grows_trans _ _ _ Hg1 (post_grows _ _ _ Hpost12)) as Ha.
  pose proof (grows_trans _ _ _ Hg2 (post_grows _ _ _ Hpost21)) as Hb.
  pose proof (dig_dig_vis s p q s1 s12 Hpost1 Hpost12) as Hv12.
  pose proof (dig_dig_vis s q p s2 s21 Hpost2 Hpost21) as Hv21.
  assert (∀ x, in_bounds s x → vis s21 x = vis s12 x) as Hvis.
  { intros x Hx. destruct (Hv12 x Hx) as [Hy Hn], (Hv21 x Hx) as [Hy' Hn'].
    destruct (grows_mono _ _ Ha x Hx) as [E|Hnew].
    - destruct (grows_mono _ _ Hb x Hx) as [E'|Hnew']; [congruence|].
      rewrite (proj2 Hnew'). symmetry. apply Hy.
      destruct (Hn' Hnew'); auto.
    - rewrite (proj2 Hnew). apply Hy'. destruct (Hn Hnew); auto. }
  destruct (geometry_eq _ _ (grows_geometry _ _ Ha)) as (Em & Ew & Eh & Ef & Eg).
  destruct (geometry_eq _ _ (grows_geometry _ _ Hb)) as (Em' & Ew' & Eh' & Ef' & Eg').
  assert (field_map s21 = field_map s12) as Hfm.
  { pose proof (wf_field_map _ (grows_wf _ _ Hb)) as Hs21.
    pose proof (wf_field_map _ (grows_wf _ _ Ha)) as Hs12.
    rewrite Ew', Eh' in Hs21. rewrite Ew, Eh in Hs12.
    eapply ndarray_ext; [exact Hs21|exact Hs12|].
    intros x Hx. by apply Hvis. }
  assert (_game_lost s21 = _game_lost s12) as Hl.
  { assert (_game_lost s21 = true ↔ _game_lost s12 = true) as Hiff.
    { rewrite (grows_lost _ _ Ha), (grows_lost _ _ Hb). unfold newly. split.
      - intros [?|(x & Hx & [H0 H1] & Hval)]; [by left|right].
        exists x. rewrite <- Hvis by done. auto.
      - intros [?|(x & Hx & [H0 H1] & Hval)]; [by left|right].
        exists x. rewrite Hvis by done. auto. }
    destruct (_game_lost s21), (_game_lost s12); try done.
    - symmetry. by apply Hiff.
    - by apply Hiff. }
  destruct s12, s21. simpl in *. congruence.
Qed.

Lemma dig_order_witness :
  ∃ s', dig 65 1 2 (dig 65 7 0 easy_board).2 = (Ok tt, s') ∧
        dig 65 7 0 (dig 65 1 2 easy_board).2 = (Ok tt, s').
Proof.
  apply (dig_order easy_board (7, 0) (1, 2) 65).
  - apply wf_intro; vm_compute; reflexivity.
  - unfold in_bounds, inb. vm_compute. intuition discriminate.
  - unfold in_bounds, inb. vm_compute. intuition discriminate.
  - vm_compute. lia.
Defined.

(** ** The console game *)

Lemma bind_returned {A B} (m : IO A) (f : A → IO B) w b w' :
  (m ≫= f) w = (Returned b, w') →
  ∃ a w1, m w = (Returned a, w1) ∧ f a w1 = (Returned b, w').
Proof.
  unfold mbind, IO_bind. destruct (m w) as [[a| | |] w1]; [eauto|done..].
Qed.

Lemma reads_ret {A} (a : A) : reads (mret a).
Proof. by intros w. Qed.

Lemma reads_bind {A B} (m : IO A) (f : A → IO B) :
  reads m → (∀ a, reads (f a)) → reads (m ≫= f).
Proof.
  intros Hm Hf w. unfold mbind, IO_bind. specialize (Hm w).
  destruct (m w) as [[a| | |] w1]; simpl in *; [|done..].
  etrans; [apply Hf|done].
Qed.

Lemma reads_print text : reads (print text).
Proof. by intros w. Qed.

Lemma reads_input prompt : reads (input prompt).
Proof.
  intros w. unfold input. destruct (stdin w) as [|l ls]; simpl; [done|].
  by apply suffix_cons_r.
Qed.

Lemma reads_call {A} (c : M A) game : reads (call c game).
Proof. intros w. unfold call. by destruct (c game) as [[| |] ?]. Qed.

Lemma reads_print_game game : reads (print_game game).
Proof.
  apply reads_bind; [apply reads_call|]. intros; apply reads_print.
Qed.

Section PlayFacts.

Context (upper : string → string) (int : string → option Z)
  (shuffle : nat → list Z → list Z).

Lemma reads_int_minus_1 text : reads (int_minus_1 int text).
Proof. intros w. unfold int_minus_1. by destruct (int text). Qed.

Lemma reads_htp_loop fuel : reads (htp_loop upper fuel).
Proof.
  induction fuel as [|fuel IH]; simpl; [by intros w|].
  apply reads_bind; [apply reads_input|]. intros h.
  case_decide; [apply reads_print|].
  case_decide; [|apply reads_ret].
  apply reads_bind; [apply reads_print|done].
Qed.

Lemma reads_diff_loop fuel : reads (diff_loop upper fuel).
Proof.
  induction fuel as [|fuel IH]; simpl; [by intros w|].
  apply reads_bind; [apply reads_input|]. intros d.
  repeat (case_decide; [apply reads_ret|]).
  apply reads_bind; [apply reads_print|done].
Qed.

Lemma reads_Minefield_new diff : reads (Minefield_new shuffle diff).
Proof.
  intros w. unfold Minefield_new. by destruct (new _ _) as [[| |] ?].
Qed.

Lemma reads_turn game i : reads (turn upper int game i).
Proof.
  unfold turn.
  destruct (split_space i) as [|a [|ys [|xs [|]]]];
    try (apply reads_bind; [apply reads_print|intros; apply reads_ret]).
  apply reads_bind; [apply reads_int_minus_1|]. intros y.
  apply reads_bind; [apply reads_int_minus_1|]. intros x.
  repeat (case_decide;
          [apply reads_bind; [apply reads_print|intros; apply reads_ret]|]).
  case_decide.
  - apply reads_bind; [apply reads_call|]. intros dug.
    apply reads_bind; [apply reads_call|]. intros lost.
    destruct (lost.1).
    + apply reads_bind; [apply reads_print_game|]. intros _.
      apply reads_bind; [apply reads_print|intros; apply reads_ret].
    + apply reads_bind; [apply reads_call|]. intros won.
      destruct (won.1); [|apply reads_ret].
      apply reads_bind; [apply reads_print_game|]. intros _.
      apply reads_bind; [apply reads_print|intros; apply reads_ret].
  - case_decide; [|apply reads_ret].
    apply reads_bind; [apply reads_call|intros; apply reads_ret].
Qed.

Lemma reads_game_loop fuel : ∀ game, reads (game_loop upper int fuel game).
Proof.
  induction fuel as [|fuel IH]; intros game; simpl; [by intros w|].
  apply reads_bind; [apply reads_print_game|]. intros _.
  apply reads_bind; [apply reads_input|]. intros i.
  apply reads_bind; [apply reads_turn|]. intros [g|]; [apply IH|apply reads_ret].
Qed.

Lemma reads_play fuel : reads (play upper int shuffle fuel).
Proof.
  induction fuel as [|fuel IH]; [by intros w|].
  change (play upper int shuffle (S fuel)) with
    (print "Welcome to Minesweeper - Olivia's Version!" ;;
     htp_loop upper (S fuel) ;;
     diff ← diff_loop upper (S fuel);
     game ← Minefield_new shuffle diff;
     game_loop upper int (S fuel) game ;;
     again ← input "Would you like to play again? (Y/N): ";
     if decide (again ≠ EmptyString) then play upper int shuffle fuel
     else print "Thanks for playing!").
  apply reads_bind; [apply reads_print|]. intros _.
  apply reads_bind; [apply reads_htp_loop|]. intros _.
  apply reads_bind; [apply reads_diff_loop|]. intros diff.
  apply reads_bind; [apply reads_Minefield_new|]. intros game.
  apply reads_bind; [apply reads_game_loop|]. intros _.
  apply reads_bind; [apply reads_input|]. intros again.
  case_decide; [done|apply reads_print].
Qed.

End PlayFacts.

Lemma reads_run {A} (c : IO A) w r w1 :
  reads c → c w = (r, w1) → stdin w1 `suffix_of` stdin w.
Proof. intros Hc E. specialize (Hc w). by rewrite E in Hc. Qed.

Lemma elem_of_suffix_of {A} (x : A) l1 l2 :
  l1 `suffix_of` l2 → x ∈ l1 → x ∈ l2.
Proof. intros [k ->] Hx. apply elem_of_app. by right. Qed.

Lemma input_returned prompt w line w' :
  input prompt w = (Returned line, w') →
  stdin w = line :: stdin w' ∧ stdout w' = stdout w ++ [Asked prompt].
Proof.
  unfold input. destruct (stdin w) as [|l ls]; [done|].
  by intros [= -> <-].
Qed.

(** X14. [play] returns only if the player typed an empty line, and its
    last output is then "Thanks for playing!": since every non-empty answer
    to "play again", N included, starts the next game, a session without an
    empty line never returns. *)
Theorem play_returns_on_empty_line
    (upper : string → string) (int : string → option Z)
    (shuffle : nat → list Z → list Z) fuel w w' :
  play upper int shuffle fuel w = (Returned tt, w') →
  EmptyString ∈ stdin w ∧ last (stdout w') = Some (Printed "Thanks for playing!").
Proof.
  revert w. induction fuel as [|fuel IH]; intros w; [done|].
  change (play upper int shuffle (S fuel)) with
    (print "Welcome to Minesweeper - Olivia's Version!" ;;
     htp_loop upper (S fuel) ;;
     diff ← diff_loop upper (S fuel);
     game ← Minefield_new shuffle diff;
     game_loop upper int (S fuel) game ;;
     again ← input "Would you like to play again? (Y/N): ";
     if decide (again ≠ EmptyString) then play upper int shuffle fuel
     else print "Thanks for playing!").
  intros (u1 & w1 & E1 & (u2 & w2 & E2 & (diff & w3 & E3 & (game & w4 & E4 &
    (u5 & w5 & E5 & (again & w6 & E6 & E7)%bind_returned)%bind_returned
    )%bind_returned)%bind_returned)%bind_returned)%bind_returned.
  assert (stdin w5 `suffix_of` stdin w) as Hs.
  { etrans; [exact (reads_run _ _ _ _ (reads_game_loop upper int _ _) E5)|].
    etrans; [exact (reads_run _ _ _ _ (reads_Minefield_new shuffle _) E4)|].
    etrans; [exact (reads_run _ _ _ _ (reads_diff_loop upper _) E3)|].
    etrans; [exact (reads_run _ _ _ _ (reads_htp_loop upper _) E2)|].
    exact (reads_run _ _ _ _ (reads_print _) E1). }
  destruct (input_returned _ _ _ _ E6) as [Hin _].
  destruct (decide (again ≠ EmptyString)) as [Hne|He].
  - destruct (IH _ E7) as [Hempty Hlast]. split; [|done].
    apply (elem_of_suffix_of _ _ _ Hs). rewrite Hin. by right.
  - split.
    + apply (elem_of_suffix_of _ _ _ Hs). rewrite Hin.
      destruct (decide (again = EmptyString)) as [->|]; [left|done].
    + injection E7 as <-. simpl. by rewrite last_snoc.
Qed.



Section Allowed.

Context (int : string → option Z) (lines : list string).








Context (upper : string → string).





End Allowed.



Lemma play_returns_on_empty_line_witness :
  EmptyString ∈ ["N"; "E"; "D 1 1"; EmptyString] ∧
  last (stdout (play id int10 unshuffled 5
                  (answers ["N"; "E"; "D 1 1"; EmptyString])).2)
    = Some (Printed "Thanks for playing!").
Proof.
  apply (play_returns_on_empty_line id int10 unshuffled 5
           (answers ["N"; "E"; "D 1 1"; EmptyString])).
  vm_compute. reflexivity.
Defined.


